(** * Chat worker: conversation store, rate limiter, model gateway

    A shallow embedding of [cloudflare-workers/worker.js]: the two KV
    namespaces ([CHAT_DB], [RATE_LIMIT]), the upstream completion call and
    the GraphQL resolver [sendMessage], followed by the properties of the
    bounded message log, the request counter and the prompt builder. *)

From Stdlib Require Import ZArith QArith String Ascii List Lia.
From Stdlib Require Import Sorting.Sorted Sorting.Permutation DecimalString.
From stdpp Require Import gmap strings list.

Local Close Scope Q_scope.
Local Open Scope string_scope.
Local Open Scope list_scope.
Local Open Scope nat_scope.

(** ** Data model *)

(** [MessageRole] of the GraphQL schema. *)
Inductive MessageRole := USER | ASSISTANT | SYSTEM.

(** The message objects built in [sendMessage].  [timestamp] stands for the
    ISO-8601 string of [new Date().toISOString()], kept as the epoch
    milliseconds that [new Date(timestamp)] reads back from it; strings are
    sequences of code units, [String.length] is [.length]. *)
Record Message := mkMessage {
  id : string;
  content : string;
  role : MessageRole;
  timestamp : Z;
  conversationId : string;
  model : option string;
  tokens : Z
}.

(** What [CHAT_DB] holds: the [JSON.stringify] of a message object, or of an
    array of message ids.  [JSON.parse] gives the value back. *)
Inductive Json :=
| JMessage (m : Message)
| JIds (ids : list string).

(** A [RATE_LIMIT] entry: the stored text and the instant (epoch
    milliseconds) at which its [expirationTtl] runs out. *)
Record RateEntry := mkRateEntry {
  rate_value : string;
  rate_expires : Z
}.

(** One message of the upstream prompt. *)
Record ChatMessage := mkChatMessage {
  chat_role : string;
  chat_content : string
}.

(** The body posted to the completion endpoint ([requestBody]). *)
Record RequestBody := mkRequestBody {
  body_model : option string;
  body_messages : list ChatMessage;
  body_temperature : option Q;
  body_max_tokens : option Z;
  body_stream : bool
}.

(** [data.usage] of the upstream reply. *)
Record Usage := mkUsage {
  prompt_tokens : Z;
  completion_tokens : Z;
  total_tokens : Z
}.

(** The parsed reply.  [first_choice] is the text
    [data.choices[0].message.content] of a body whose first choice carries a
    message with a text, and [None] for a body without a first choice;
    [data_usage] is [data.usage] when present.  A first choice without a
    message or without a text is not among the replies modelled. *)
Record CompletionData := mkCompletionData {
  first_choice : option string;
  data_usage : option Usage
}.

(** What [fetch] can do: reject, answer with a non-2xx status, or answer 2xx
    with a body ([None]: the body is not JSON, [response.json()] rejects). *)
Inductive FetchOutcome :=
| NetworkFailure
| HttpStatus (status : Z)
| HttpOk (data : option CompletionData).

Record UpstreamReply := mkUpstreamReply {
  elapsed : Z;
  outcome : FetchOutcome
}.

(** ** Effects *)

(** Every call that leaves the worker is recorded, with whether it
    succeeded. *)
Inductive Op :=
| DbGet (key : string)
| DbPut (key : string) (v : Json)
| DbDelete (key : string)
| RateGet (key : string)
| RatePut (key value : string) (expirationTtl : Z)
| Fetch (body : RequestBody).

Record Event := mkEvent {
  ev_op : Op;
  ev_ok : bool
}.

(** The world a request runs in.  [chat_db] and [rate_limit] are the two KV
    namespaces, [clock] is [Date.now()] in milliseconds.  The remaining
    fields are the environment: [kv_fault n] says whether the [n]-th KV
    operation fails, [entropy] feeds [generateMessageId], [upstream] answers
    the completion call. *)
Record World := mkWorld {
  chat_db : gmap string Json;
  rate_limit : gmap string RateEntry;
  clock : Z;
  kv_ops : nat;
  kv_fault : nat -> bool;
  drawn : nat;
  entropy : nat -> string;
  upstream : RequestBody -> UpstreamReply
}.

Definition set_chat_db (d : gmap string Json) (w : World) : World :=
  mkWorld d (rate_limit w) (clock w) (kv_ops w) (kv_fault w)
          (drawn w) (entropy w) (upstream w).

Definition set_rate_limit (r : gmap string RateEntry) (w : World) : World :=
  mkWorld (chat_db w) r (clock w) (kv_ops w) (kv_fault w)
          (drawn w) (entropy w) (upstream w).

Definition set_clock (t : Z) (w : World) : World :=
  mkWorld (chat_db w) (rate_limit w) t (kv_ops w) (kv_fault w)
          (drawn w) (entropy w) (upstream w).

Definition count_op (w : World) : World :=
  mkWorld (chat_db w) (rate_limit w) (clock w) (S (kv_ops w)) (kv_fault w)
          (drawn w) (entropy w) (upstream w).

Definition count_draw (w : World) : World :=
  mkWorld (chat_db w) (rate_limit w) (clock w) (kv_ops w) (kv_fault w)
          (S (drawn w)) (entropy w) (upstream w).

(** An [async] function: it returns a value or throws, changes the world
    and leaves a trace of the calls it made. *)
Inductive Outcome (A : Type) :=
| Val (a : A)
| Exn.
Arguments Val {A} a.
Arguments Exn {A}.

Definition M (A : Type) : Type := World -> Outcome A * World * list Event.

Definition ret {A} (a : A) : M A := fun w => (Val a, w, []).

Definition throw {A} : M A := fun w => (Exn, w, []).

Definition bind {A B} (m : M A) (k : A -> M B) : M B :=
  fun w =>
    match m w with
    | (Val a, w1, t1) =>
        match k a w1 with
        | (r, w2, t2) => (r, w2, t1 ++ t2)
        end
    | (Exn, w1, t1) => (Exn, w1, t1)
    end.

(** [try { body } catch { handler }] *)
Definition try_catch {A} (body handler : M A) : M A :=
  fun w =>
    match body w with
    | (Val a, w1, t1) => (Val a, w1, t1)
    | (Exn, w1, t1) =>
        match handler w1 with
        | (r, w2, t2) => (r, w2, t1 ++ t2)
        end
    end.

Declare Scope worker_scope.
Delimit Scope worker_scope with worker.
Notation "'let*' x ':=' m 'in' k" := (bind m (fun x => k))
  (at level 10, x name, m at level 100, k at level 200) : worker_scope.
Notation "m ';;;' k" := (bind m (fun _ => k))
  (at level 100, k at level 200, right associativity) : worker_scope.
Local Open Scope worker_scope.

(** A KV operation: the fault oracle decides whether it goes through. *)
Definition kv_call {A} (op : Op) (f : World -> A * World) : M A :=
  fun w =>
    let w1 := count_op w in
    if kv_fault w (kv_ops w) then (Exn, w1, [mkEvent op false])
    else match f w1 with
         | (a, w2) => (Val a, w2, [mkEvent op true])
         end.

(** [env.CHAT_DB.get/put/delete] *)
Definition db_get (key : string) : M (option Json) :=
  kv_call (DbGet key) (fun w => (chat_db w !! key, w)).

Definition db_put (key : string) (v : Json) : M unit :=
  kv_call (DbPut key v) (fun w => (tt, set_chat_db (<[key := v]> (chat_db w)) w)).

Definition db_delete (key : string) : M unit :=
  kv_call (DbDelete key) (fun w => (tt, set_chat_db (delete key (chat_db w)) w)).

(** [env.RATE_LIMIT.get]: an entry whose time to live has run out is gone. *)
Definition rate_lookup (now : Z) (r : gmap string RateEntry) (key : string)
  : option string :=
  match r !! key with
  | Some e => if (now <? rate_expires e)%Z then Some (rate_value e) else None
  | None => None
  end.

Definition rate_get (key : string) : M (option string) :=
  kv_call (RateGet key) (fun w => (rate_lookup (clock w) (rate_limit w) key, w)).

(** [env.RATE_LIMIT.put(key, value, { expirationTtl })], the ttl in
    seconds. *)
Definition rate_put (key value : string) (expirationTtl : Z) : M unit :=
  kv_call (RatePut key value expirationTtl)
    (fun w => (tt, set_rate_limit
                     (<[key := mkRateEntry value (clock w + 1000 * expirationTtl)]>
                        (rate_limit w)) w)).

(** [fetch] of the completion endpoint followed by the reading of the
    reply; the clock moves on by the time the call took. *)
Definition fetch_completion (body : RequestBody) : M FetchOutcome :=
  fun w =>
    let r := upstream w body in
    let w1 := set_clock (clock w + elapsed r) w in
    match outcome r with
    | NetworkFailure => (Exn, w1, [mkEvent (Fetch body) false])
    | o => (Val o, w1, [mkEvent (Fetch body) true])
    end.

Definition now : M Z := fun w => (Val (clock w), w, []).

(** ** Numbers and their text *)

(** The numbers the rate limiter computes with: an integer or [NaN]
    ([parseInt] yields nothing else on the texts the counter holds; the
    model is exact below 2^53). *)
Inductive Num :=
| NaN
| Int (z : Z).

(** [a >= b]: false as soon as one side is [NaN]. *)
Definition num_geb (a b : Num) : bool :=
  match a, b with
  | Int x, Int y => (y <=? x)%Z
  | _, _ => false
  end.

Definition num_add (a b : Num) : Num :=
  match a, b with
  | Int x, Int y => Int (x + y)
  | _, _ => NaN
  end.

Definition num_sub (a b : Num) : Num :=
  match a, b with
  | Int x, Int y => Int (x - y)
  | _, _ => NaN
  end.

(** [Number.prototype.toString()] *)
Definition num_toString (n : Num) : string :=
  match n with
  | NaN => "NaN"
  | Int z => NilZero.string_of_int (Z.to_int z)
  end.

(** The white space [parseInt] skips, as far as single code units below 128
    go. *)
Definition is_white_space (c : ascii) : bool :=
  match nat_of_ascii c with
  | 9 | 10 | 11 | 12 | 13 | 32 => true
  | _ => false
  end.

Fixpoint skip_white_space (s : string) : string :=
  match s with
  | String c r => if is_white_space c then skip_white_space r else s
  | EmptyString => s
  end.

(** The value of a digit in the given radix. *)
Definition digit_value (radix : Z) (c : ascii) : option Z :=
  let n := Z.of_nat (nat_of_ascii c) in
  let v := if (48 <=? n)%Z && (n <=? 57)%Z then Some (n - 48)%Z
           else if (97 <=? n)%Z && (n <=? 122)%Z then Some (n - 87)%Z
           else if (65 <=? n)%Z && (n <=? 90)%Z then Some (n - 55)%Z
           else None in
  match v with
  | Some d => if (d <? radix)%Z then Some d else None
  | None => None
  end.

(** The longest prefix of digits; [None] when there is none. *)
Fixpoint parse_digits (radix : Z) (s : string) (acc : option Z) : option Z :=
  match s with
  | String c r =>
      match digit_value radix c with
      | Some d => parse_digits radix r (Some (default 0%Z acc * radix + d)%Z)
      | None => acc
      end
  | EmptyString => acc
  end.

(** [parseInt(text)] without a radix: white space, a sign, a [0x] prefix,
    then digits. *)
Definition parseInt (text : string) : Num :=
  let s1 := skip_white_space text in
  let '(sign, s2) :=
    match s1 with
    | String "-" r => ((-1)%Z, r)
    | String "+" r => (1%Z, r)
    | _ => (1%Z, s1)
    end in
  let '(radix, s3) :=
    match s2 with
    | String "0" (String "x" r) => (16%Z, r)
    | String "0" (String "X" r) => (16%Z, r)
    | _ => (10%Z, s2)
    end in
  match parse_digits radix s3 None with
  | Some n => Int (sign * n)
  | None => NaN
  end.

(** [Math.ceil(text.length / 1.5)]: the quotient by 1.5 is 2/3 of the
    length, and its ceiling is exact in double precision for every length
    a string can have. *)
Definition estimateTokens (text : string) : Z :=
  ((2 * Z.of_nat (String.length text) + 2) / 3)%Z.


(** ** ConversationStore *)

(** The key layout: [msg:<conversationId>:<messageId>] for a record,
    [conv:<conversationId>] for the id list. *)
Definition msg_key (conv mid : string) : string :=
  "msg:" +:+ conv +:+ ":" +:+ mid.

Definition conv_key (conv : string) : string :=
  "conv:" +:+ conv.

(** [JSON.parse] of a stored id list, used as an array.  A message object
    in its place is not iterable and has no [push]: the caller throws. *)
Definition as_ids (v : Json) : M (list string) :=
  match v with
  | JIds ids => ret ids
  | JMessage _ => throw
  end.

(** [saveMessage(env, message)] *)
Definition saveMessage (message : Message) : M unit :=
  let key := msg_key (conversationId message) (id message) in
  db_put key (JMessage message) ;;;
  let listKey := conv_key (conversationId message) in
  let* existingList := db_get listKey in
  let* parsed := match existingList with
                 | Some v => as_ids v
                 | None => ret []
                 end in
  let messageIds := parsed ++ [id message] in
  let* messageIds :=
    (if (100 <? length messageIds)%nat then
       match messageIds with
       | removedId :: rest =>
           db_delete (msg_key (conversationId message) removedId) ;;;
           ret rest
       | [] => ret []
       end
     else ret messageIds) in
  db_put listKey (JIds messageIds).

(** [messages.sort((a, b) => new Date(a.timestamp) - new Date(b.timestamp))]:
    the sort is stable, so its result is the one of a stable insertion
    sort. *)
Fixpoint insert_by_timestamp (m : Message) (l : list Message) : list Message :=
  match l with
  | [] => [m]
  | x :: r =>
      if (timestamp m <=? timestamp x)%Z then m :: l
      else x :: insert_by_timestamp m r
  end.

Definition sort_by_timestamp (l : list Message) : list Message :=
  foldr insert_by_timestamp [] l.

(** The loop of [getConversationMessages]: one [get] per id, ids without a
    record are skipped.  Record keys are written by [saveMessage] alone, with
    message objects; an id array found under one is outside the model and
    raises. *)
Fixpoint collect_messages (conv : string) (ids : list string)
  (messages : list Message) : M (list Message) :=
  match ids with
  | [] => ret messages
  | mid :: rest =>
      let* messageData := db_get (msg_key conv mid) in
      match messageData with
      | Some (JMessage m) => collect_messages conv rest (messages ++ [m])
      | Some (JIds _) => throw
      | None => collect_messages conv rest messages
      end
  end.

(** [getConversationMessages(env, conversationId)] *)
Definition getConversationMessages (conv : string) : M (list Message) :=
  let listKey := conv_key conv in
  let* messageIds := db_get listKey in
  match messageIds with
  | None => ret []
  | Some v =>
      let* ids := as_ids v in
      let* messages := collect_messages conv ids [] in
      ret (sort_by_timestamp messages)
  end.

(** The loop of [clearConversationMessages]. *)
Fixpoint delete_records (conv : string) (ids : list string) : M unit :=
  match ids with
  | [] => ret tt
  | mid :: rest => db_delete (msg_key conv mid) ;;; delete_records conv rest
  end.

(** [clearConversationMessages(env, conversationId)] *)
Definition clearConversationMessages (conv : string) : M unit :=
  let listKey := conv_key conv in
  let* messageIds := db_get listKey in
  match messageIds with
  | Some v =>
      let* ids := as_ids v in
      delete_records conv ids ;;;
      db_delete listKey
  | None => ret tt
  end.

(** ** RateLimiter *)

Record RateLimitCheck := mkRateLimitCheck {
  allowed : bool;
  remaining : option Num;
  resetTime : option Z
}.

Definition rate_key (clientIP : string) : string := "rate:" +:+ clientIP.

Definition limit : Z := 30.
Definition window : Z := 60.

(** [checkRateLimit(env, clientIP)] *)
Definition checkRateLimit (clientIP : string) : M RateLimitCheck :=
  let key := rate_key clientIP in
  try_catch
    (let* current := rate_get key in
     let count := match current with
                  | Some EmptyString => Int 0
                  | Some text => parseInt text
                  | None => Int 0
                  end in
     if num_geb count (Int limit) then
       ret (mkRateLimitCheck false None (Some window))
     else
       rate_put key (num_toString (num_add count (Int 1))) window ;;;
       ret (mkRateLimitCheck true
              (Some (num_sub (num_sub (Int limit) count) (Int 1))) None))
    (ret (mkRateLimitCheck true None None)).

(** ** Input validation *)

(** [SendMessageInput] after GraphQL coercion: [message] and
    [conversationId] are non-null strings, the other fields are a value or
    [null]; a [Float] is a finite double, hence a rational. *)
Record SendMessageInput := mkSendMessageInput {
  in_message : string;
  in_conversationId : string;
  in_model : option string;
  in_temperature : option Q;
  in_maxTokens : option Z
}.

Record Validation := mkValidation {
  valid : bool;
  validation_error : option string
}.

(** [validateMessageInput(input)]; a guard [x && (...)] passes when [x] is
    [null] or zero. *)
Definition validateMessageInput (input : SendMessageInput) : Validation :=
  if String.eqb (in_message input) EmptyString then
    mkValidation false (Some "消息内容不能为空")
  else if (2000 <? String.length (in_message input))%nat then
    mkValidation false (Some "消息长度不能超过2000字符")
  else if String.eqb (in_conversationId input) EmptyString then
    mkValidation false (Some "会话ID不能为空")
  else if match in_temperature input with
          | Some t => negb (Qeq_bool t 0)
                      && (negb (Qle_bool 0 t) || negb (Qle_bool t 2))
          | None => false
          end then
    mkValidation false (Some "温度参数必须在0-2之间")
  else if match in_maxTokens input with
          | Some n => negb (n =? 0)%Z && ((n <? 1)%Z || (4000 <? n)%Z)
          | None => false
          end then
    mkValidation false (Some "最大token数必须在1-4000之间")
  else
    mkValidation true None.

(** ** ModelGateway *)

Definition system_instruction : string :=
  "你是一个友善、有帮助的AI助手。请用中文回答问题，保持回答准确、简洁且有用。".

(** [msg.role.toLowerCase()] *)
Definition role_lower (r : MessageRole) : string :=
  match r with
  | USER => "user"
  | ASSISTANT => "assistant"
  | SYSTEM => "system"
  end.

(** [history.slice(-n)]: the last [n] elements, all of them when there are
    fewer. *)
Definition slice_last {A} (n : nat) (l : list A) : list A :=
  drop (length l - n) l.

(** The [messages] array of [callDeepSeekAPI]. *)
Definition prompt_messages (message : string) (history : list Message)
  : list ChatMessage :=
  let messages := [mkChatMessage "system" system_instruction] in
  let recentHistory := slice_last 20 history in
  let messages :=
    messages ++ map (fun msg => mkChatMessage (role_lower (role msg)) (content msg))
                    recentHistory in
  messages ++ [mkChatMessage "user" message].

Record Completion := mkCompletion {
  completion_content : string;
  completion_usage : option Usage
}.

(** [callDeepSeekAPI(env, { message, history, model, temperature, maxTokens })].
    The API key always has its fallback, so the check of it never throws; the
    parameter defaults apply to [undefined] only, which the resolver never
    passes. *)
Definition callDeepSeekAPI (message : string) (history : list Message)
  (model : option string) (temperature : option Q) (maxTokens : option Z)
  : M Completion :=
  let requestBody :=
    mkRequestBody model (prompt_messages message history) temperature
                  maxTokens false in
  let* response := fetch_completion requestBody in
  match response with
  | HttpOk (Some data) =>
      match first_choice data with
      | Some text => ret (mkCompletion text (data_usage data))
      | None => throw
      end
  | _ => throw
  end.

(** ** ChatService *)

(** ['msg_' + Date.now().toString(36) + Math.random()...]: the part after
    the prefix comes from the environment. *)
Definition generateMessageId : M string :=
  fun w => (Val ("msg_" +:+ entropy w (drawn w)), count_draw w, []).

Record TokenUsage := mkTokenUsage {
  promptTokens : Z;
  completionTokens : Z;
  totalTokens : Z
}.

Record SendMessageResponse := mkSendMessageResponse {
  success : bool;
  message : option Message;
  error : option string;
  usage : option TokenUsage
}.

(** [deepseekResponse.usage?.completion_tokens || 0] *)
Definition completion_tokens_or_zero (u : option Usage) : Z :=
  match u with
  | Some u => if (completion_tokens u =? 0)%Z then 0%Z else completion_tokens u
  | None => 0%Z
  end.

(** The text shown when the limiter rejects. *)
Definition rate_limit_error (rl : RateLimitCheck) : string :=
  "请求过于频繁，请 "
  +:+ match resetTime rl with
      | Some z => num_toString (Int z)
      | None => "undefined"
      end
  +:+ " 秒后重试".

(** The resolver [Mutation.sendMessage]; [header] is the value of the
    [CF-Connecting-IP] request header. *)
Definition sendMessage (input : SendMessageInput) (header : option string)
  : M SendMessageResponse :=
  try_catch
    (let clientIP := match header with
                     | Some EmptyString => "unknown"
                     | Some ip => ip
                     | None => "unknown"
                     end in
     let* rateLimitCheck := checkRateLimit clientIP in
     if negb (allowed rateLimitCheck) then
       ret (mkSendMessageResponse false None
              (Some (rate_limit_error rateLimitCheck)) None)
     else
       let validation := validateMessageInput input in
       if negb (valid validation) then
         ret (mkSendMessageResponse false None (validation_error validation) None)
       else
         let* conversationHistory :=
           getConversationMessages (in_conversationId input) in
         let* userId := generateMessageId in
         let* userTime := now in
         let userMessage :=
           mkMessage userId (in_message input) USER userTime
                     (in_conversationId input) None
                     (estimateTokens (in_message input)) in
         saveMessage userMessage ;;;
         let* deepseekResponse :=
           callDeepSeekAPI (in_message input) conversationHistory
                           (in_model input) (in_temperature input)
                           (in_maxTokens input) in
         let* aiId := generateMessageId in
         let* aiTime := now in
         let aiMessage :=
           mkMessage aiId (completion_content deepseekResponse) ASSISTANT aiTime
                     (in_conversationId input) (in_model input)
                     (completion_tokens_or_zero
                        (completion_usage deepseekResponse)) in
         saveMessage aiMessage ;;;
         ret (mkSendMessageResponse true (Some aiMessage) None
                (match completion_usage deepseekResponse with
                 | Some u => Some (mkTokenUsage (prompt_tokens u)
                                                (completion_tokens u)
                                                (total_tokens u))
                 | None => None
                 end)))
    (ret (mkSendMessageResponse false None (Some "服务暂时不可用，请稍后重试") None)).

(** The resolver [Mutation.clearConversation]: [true] when the clearing went
    through, [false] when it threw. *)
Definition clearConversation (conv : string) : M bool :=
  try_catch (clearConversationMessages conv ;;; ret true) (ret false).

(** A store that answers, an environment that makes up ids from a counter
    and an upstream that replies with [reply]: worlds to run the worker
    in. *)
Definition quiet_world (reply : UpstreamReply) : World :=
  mkWorld ∅ ∅ 0 0 (fun _ => false) 0
          (fun n => NilZero.string_of_uint (Nat.to_uint n))
          (fun _ => reply).

(** ** Vocabulary of the properties *)

(** [returns m w a w']: from [w], [m] returns [a] and leaves [w']. *)
Definition returns {A} (m : M A) (w : World) (a : A) (w' : World) : Prop :=
  ∃ t, m w = (Val a, w', t).

(** The trace [m] leaves from [w]. *)
Definition trace_of {A} (m : M A) (w : World) : list Event := (m w).2.

(** The KV store answers every call. *)
Definition reliable (w : World) : Prop := ∀ n, kv_fault w n = false.

(** The id list of a conversation, empty when there is none. *)
Definition ids_at (d : gmap string Json) (conv : string) : list string :=
  match d !! conv_key conv with
  | Some (JIds l) => l
  | _ => []
  end.

(** The list key holds an id list, if anything. *)
Definition list_typed (d : gmap string Json) (conv : string) : Prop :=
  ∀ m, d !! conv_key conv ≠ Some (JMessage m).

(** What [saveMessage] does to the map. *)
Definition save_db (m : Message) (d : gmap string Json) : gmap string Json :=
  let conv := conversationId m in
  let d1 := <[msg_key conv (id m) := JMessage m]> d in
  let ids := ids_at d conv ++ [id m] in
  if (100 <? length ids)%nat then
    <[conv_key conv := JIds (tail ids)]> (delete (msg_key conv (hd EmptyString ids)) d1)
  else
    <[conv_key conv := JIds ids]> d1.

(** The elements shifted out so far. *)
Definition evicted {A} (n : nat) (l : list A) : list A :=
  take (length l - n) l.

(** The map after the messages [ms] of conversation [conv] were appended to
    it, oldest first: the list names the last 100, their records are there,
    the records of the others are gone. *)
Record log_inv (conv : string) (ms : list Message) (d : gmap string Json)
  : Prop := {
  inv_ids : ids_at d conv = id <$> slice_last 100 ms;
  inv_typed : list_typed d conv;
  inv_kept : ∀ m, m ∈ slice_last 100 ms →
                  d !! msg_key conv (id m) = Some (JMessage m);
  inv_gone : ∀ m, m ∈ evicted 100 ms → d !! msg_key conv (id m) = None
}.

(** [N] appends in a row. *)
Fixpoint save_all (ms : list Message) : M unit :=
  match ms with
  | [] => ret tt
  | m :: rest => saveMessage m ;;; save_all rest
  end.

(** The records found under the ids of a list, in the order of the list. *)
Definition existing_records (conv : string) (d : gmap string Json)
  (ids : list string) : list Message :=
  omap (fun mid => match d !! msg_key conv mid with
                   | Some (JMessage m) => Some m
                   | _ => None
                   end) ids.

(** No id array sits under the record key of one of the ids. *)
Definition records_typed (conv : string) (d : gmap string Json)
  (ids : list string) : Prop :=
  ∀ mid l, mid ∈ ids → d !! msg_key conv mid ≠ Some (JIds l).

(** The order of [sort_by_timestamp]. *)
Definition timestamp_le (a b : Message) : Prop :=
  (timestamp a ≤ timestamp b)%Z.

(** Sample data: [n] messages of one conversation, numbered from 0, the
    number being both the id and the timestamp. *)
Definition numbered_message (conv : string) (i : nat) : Message :=
  mkMessage (NilZero.string_of_uint (Nat.to_uint i)) "text" USER (Z.of_nat i)
            conv None 3.

Definition numbered_messages (conv : string) (n : nat) : list Message :=
  map (numbered_message conv) (seq 0 n).

Definition silent_reply : UpstreamReply := mkUpstreamReply 0 NetworkFailure.

(** What the loop of [clearConversationMessages] does to the map. *)
Definition delete_all (conv : string) (ids : list string)
  (d : gmap string Json) : gmap string Json :=
  foldl (fun d mid => delete (msg_key conv mid) d) d ids.

(** Sample data: a conversation whose list names three ids, the middle one
    without a record, the other two stored out of timestamp order. *)
Definition late_message : Message :=
  mkMessage "a" "second" ASSISTANT 5 "c" (Some "deepseek-chat") 2.

Definition early_message : Message :=
  mkMessage "b" "first" USER 2 "c" None 4.

Definition dangling_world : World :=
  set_chat_db
    (<[conv_key "c" := JIds ["a"; "ghost"; "b"]]>
       (<[msg_key "c" "a" := JMessage late_message]>
          (<[msg_key "c" "b" := JMessage early_message]> ∅)))
    (quiet_world silent_reply).

(** The count [checkRateLimit] reads from what [get] gave it:
    [current ? parseInt(current) : 0]. *)
Definition count_of (current : option string) : Num :=
  match current with
  | Some EmptyString => Int 0
  | Some text => parseInt text
  | None => Int 0
  end.

(** A world whose KV store fails every call. *)
Definition down_world : World :=
  mkWorld ∅ ∅ 0 0 (fun _ => true) 0 (fun _ => EmptyString) (fun _ => silent_reply).

(** A world whose KV store answers the first call and fails the second. *)
Definition flaky_world : World :=
  mkWorld ∅ ∅ 0 0 (fun n => Nat.eqb n 1) 0 (fun _ => EmptyString) (fun _ => silent_reply).

(** The check made at instant [t] (milliseconds). *)
Definition check_at (ip : string) (t : Z) : M RateLimitCheck :=
  fun w => checkRateLimit ip (set_clock t w).

(** One check per instant of [ts], in order. *)
Fixpoint checks_at (ip : string) (ts : list Z) : M (list RateLimitCheck) :=
  match ts with
  | [] => ret []
  | t :: rest =>
      let* c := check_at ip t in
      let* cs := checks_at ip rest in
      ret (c :: cs)
  end.

(** The window opened at [t1]: the 60 seconds from it. *)
Definition in_window (t1 t : Z) : Prop :=
  (t1 ≤ t < t1 + 1000 * window)%Z.

(** The answer to the check number [j] (from 0) of a window. *)
Definition verdict (j : nat) : RateLimitCheck :=
  if j <? 30 then mkRateLimitCheck true (Some (Int (29 - Z.of_nat j))) None
  else mkRateLimitCheck false None (Some window).

(** Through the window opened at [t1], the counter of [ip] reads [k]. *)
Definition counter_reads (ip : string) (t1 : Z) (k : nat) (w : World) : Prop :=
  ∀ t, in_window t1 t →
       count_of (rate_lookup t (rate_limit w) (rate_key ip)) = Int (Z.of_nat k).

(** The milliseconds an entry of the counter store has left at [now]. *)
Definition remaining_lifetime (now : Z) (r : gmap string RateEntry)
  (key : string) : option Z :=
  match r !! key with
  | Some e => if (now <? rate_expires e)%Z then Some (rate_expires e - now)%Z
              else None
  | None => None
  end.

(** [request.headers.get('CF-Connecting-IP') || 'unknown'] *)
Definition client_ip (header : option string) : string :=
  match header with
  | Some EmptyString => "unknown"
  | Some ip => ip
  | None => "unknown"
  end.

(** The operations of the rate limiter, of the conversation store and of
    the model gateway. *)
Definition is_rate_op (op : Op) : bool :=
  match op with
  | RateGet _ | RatePut _ _ _ => true
  | _ => false
  end.

Definition is_db_op (op : Op) : bool :=
  match op with
  | DbGet _ | DbPut _ _ | DbDelete _ => true
  | _ => false
  end.

Definition is_fetch (op : Op) : bool :=
  match op with
  | Fetch _ => true
  | _ => false
  end.

(** An input out of the ranges the validation enforces: an empty message,
    one of more than 2000 characters, no conversation id, a temperature
    outside [0, 2], or a [maxTokens] other than zero outside [1, 4000]. *)
Definition temperature_out_of_range (input : SendMessageInput) : Prop :=
  ∃ t, in_temperature input = Some t ∧ (t < 0 ∨ 2 < t)%Q.

Definition maxTokens_out_of_range (input : SendMessageInput) : Prop :=
  ∃ n, in_maxTokens input = Some n ∧ n ≠ 0%Z ∧ (n < 1 ∨ 4000 < n)%Z.

Definition invalid_input (input : SendMessageInput) : Prop :=
  in_message input = EmptyString
  ∨ 2000 < String.length (in_message input)
  ∨ in_conversationId input = EmptyString
  ∨ temperature_out_of_range input
  ∨ maxTokens_out_of_range input.

(** The model identifiers the chat widget offers
    ([AIChatWithGraphQL.tsx], the options of the model selector). *)
Definition supported_models : list string :=
  ["deepseek-chat"; "deepseek-coder"].

(** Sample inputs. *)
Definition empty_input : SendMessageInput :=
  mkSendMessageInput EmptyString "conv_abc" (Some "deepseek-chat") (Some (7 # 10)%Q)
                     (Some 1000%Z).

Definition cold_input : SendMessageInput :=
  mkSendMessageInput "hello" "conv_abc" (Some "deepseek-chat")
                     (Some (- (1 # 2))%Q) (Some 1000%Z).

Definition foreign_model_input : SendMessageInput :=
  mkSendMessageInput "hello" "conv_abc" (Some "gpt-4") (Some (7 # 10)%Q)
                     (Some 1000%Z).

Definition zero_tokens_input : SendMessageInput :=
  mkSendMessageInput "hello" "conv_abc" (Some "deepseek-chat") (Some (7 # 10)%Q)
                     (Some 0%Z).

Definition hello_input : SendMessageInput :=
  mkSendMessageInput "hello" "conv_abc" (Some "deepseek-chat") (Some (7 # 10)%Q)
                     (Some 1000%Z).

(** Sample replies of the upstream: with and without [usage]. *)
Definition reply_with_usage : UpstreamReply :=
  mkUpstreamReply 5 (HttpOk (Some (mkCompletionData (Some "hi there")
                                     (Some (mkUsage 5 3 8))))).

Definition reply_without_usage : UpstreamReply :=
  mkUpstreamReply 5 (HttpOk (Some (mkCompletionData (Some "hi there") None))).

(** [m] leaves the upstream as it found it. *)
Definition env_stable {A} (m : M A) : Prop :=
  ∀ w, upstream (m w).1.2 = upstream w.

(** Sample run: "hello" sent to a fresh store, the upstream answering
    "hi there" with a usage of 5 + 3 tokens. *)
Definition hello_run : Outcome SendMessageResponse * World * list Event :=
  sendMessage hello_input (Some "203.0.113.7") (quiet_world reply_with_usage).

Definition hello_response : SendMessageResponse :=
  mkSendMessageResponse true
    (Some (mkMessage "msg_1" "hi there" ASSISTANT 5 "conv_abc"
                     (Some "deepseek-chat") 3))
    None (Some (mkTokenUsage 5 3 8)).

(** ** The other resolvers *)







Record Conversation := mkConversation {
  conv_id : string;
  conv_messages : list Message;
  createdAt : Z;
  updatedAt : Z;
  messageCount : nat
}.

(** The resolver [Query.conversation]; [None] is [null].  A timestamp is
    never the empty text, so [x?.timestamp || now] is the timestamp when
    there is a message. *)
Definition conversation (cid : string) : M (option Conversation) :=
  try_catch
    (let* messages := getConversationMessages cid in
     let* t := now in
     ret (Some (mkConversation cid messages
                  (match head messages with
                   | Some m => timestamp m
                   | None => t
                   end)
                  (match last messages with
                   | Some m => timestamp m
                   | None => t
                   end)
                  (length messages))))
    (ret None).

(** ** Vocabulary of the further properties *)

(** From [w], [m] throws and leaves [w']. *)
Definition raises {A} (m : M A) (w w' : World) : Prop :=
  ∃ t, m w = (Exn, w', t).

(** Between [w] and [w'] nothing but the chat store and the count of KV
    operations has changed. *)
Definition db_step (w w' : World) : Prop :=
  rate_limit w' = rate_limit w ∧ clock w' = clock w
  ∧ kv_fault w' = kv_fault w ∧ drawn w' = drawn w
  ∧ entropy w' = entropy w ∧ upstream w' = upstream w.

(** Between [w] and [w'] the chat store has not changed. *)
Definition same_chat_db (w w' : World) : Prop := chat_db w' = chat_db w.

(** Whatever [m] does and however it ends, it takes a world to one related
    to it by [R]. *)
Definition keeps {A} (R : World → World → Prop) (m : M A) : Prop :=
  ∀ w, R w (m w).1.2.

(** An input inside every range the validation knows. *)
Definition in_range_input (input : SendMessageInput) : Prop :=
  in_message input ≠ EmptyString
  ∧ String.length (in_message input) ≤ 2000
  ∧ in_conversationId input ≠ EmptyString
  ∧ (∀ t, in_temperature input = Some t → (0 <= t ∧ t <= 2)%Q)
  ∧ (∀ n, in_maxTokens input = Some n → (1 ≤ n ≤ 4000)%Z).

(** Requests following one another, each less than a window after the one
    before. *)
Fixpoint paced (prev : Z) (ts : list Z) : Prop :=
  match ts with
  | [] => True
  | t :: rest => (prev ≤ t < prev + 1000 * window)%Z ∧ paced t rest
  end.

(** The counter of [ip] holds [k], written at [at_]. *)
Definition counter_written (ip : string) (k : nat) (at_ : Z) (w : World)
  : Prop :=
  rate_limit w !! rate_key ip
  = Some (mkRateEntry (num_toString (Int (Z.of_nat k))) (at_ + 1000 * window)).

(** The upstream gives no completion, whatever it is asked. *)
Definition no_completion (o : FetchOutcome) : Prop :=
  match o with
  | HttpOk (Some data) => first_choice data = None
  | _ => True
  end.

(** The two messages a send stores: the user turn, made at [w], and the
    assistant turn, made once the upstream has answered. *)
Definition user_turn (input : SendMessageInput) (w : World) : Message :=
  mkMessage ("msg_" +:+ entropy w (drawn w)) (in_message input) USER (clock w)
            (in_conversationId input) None (estimateTokens (in_message input)).

Definition assistant_turn (input : SendMessageInput) (w : World)
  (took : Z) (text : string) (u : option Usage) : Message :=
  mkMessage ("msg_" +:+ entropy w (S (drawn w))) text ASSISTANT (clock w + took)
            (in_conversationId input) (in_model input)
            (completion_tokens_or_zero u).

(** The request body a send posts, given the history it read. *)
Definition send_body (input : SendMessageInput) (history : list Message)
  : RequestBody :=
  mkRequestBody (in_model input) (prompt_messages (in_message input) history)
                (in_temperature input) (in_maxTokens input) false.

(** The text has no colon in it. *)
Definition colon_free (s : string) : Prop :=
  ∀ c, c ∈ list_ascii_of_string s → c ≠ ":"%char.

(** The times of a client that asks every 59 seconds, 30 times after the
    first. *)
Definition every_59_seconds : list Z :=
  map (fun i => (59000 * Z.of_nat i)%Z) (seq 1 30).

(** Between [w] and [w'] no key of the chat store other than those of
    conversation [conv] has changed. *)
Definition others_untouched (conv : string) (w w' : World) : Prop :=
  ∀ key, key ≠ conv_key conv → (∀ mid, key ≠ msg_key conv mid) →
         chat_db w' !! key = chat_db w !! key.

(** What [sendMessage] does once the user message is saved: the upstream
    call, then the saving of the answer. *)
Definition upstream_stage (input : SendMessageInput)
  (conversationHistory : list Message) : M SendMessageResponse :=
  let* deepseekResponse :=
    callDeepSeekAPI (in_message input) conversationHistory
                    (in_model input) (in_temperature input)
                    (in_maxTokens input) in
  let* aiId := generateMessageId in
  let* aiTime := now in
  let aiMessage :=
    mkMessage aiId (completion_content deepseekResponse) ASSISTANT aiTime
              (in_conversationId input) (in_model input)
              (completion_tokens_or_zero
                 (completion_usage deepseekResponse)) in
  saveMessage aiMessage ;;;
  ret (mkSendMessageResponse true (Some aiMessage) None
         (match completion_usage deepseekResponse with
          | Some u => Some (mkTokenUsage (prompt_tokens u)
                                         (completion_tokens u)
                                         (total_tokens u))
          | None => None
          end)).

(** The answer of the resolver when something threw. *)
Definition unavailable : SendMessageResponse :=
  mkSendMessageResponse false None (Some "服务暂时不可用，请稍后重试") None.

(** The history a send reads from the map [d]. *)
Definition history_of (conv : string) (d : gmap string Json) : list Message :=
  sort_by_timestamp (existing_records conv d (ids_at d conv)).

(** Every event [m] leaves, however it ends, satisfies [P]. *)
Definition emits {A} (P : Event → Prop) (m : M A) : Prop :=
  ∀ w, Forall P (m w).2.

(** The event is no call to the upstream. *)
Definition no_fetch (e : Event) : Prop := is_fetch (ev_op e) = false.

(** Between [w] and [w'] the counter store has not changed. *)
Definition same_rate_limit (w w' : World) : Prop := rate_limit w' = rate_limit w.


(** Sample data: the store after three appends to conversation "c". *)
Definition three_message_world : World :=
  (save_all (numbered_messages "c" 3) (quiet_world silent_reply)).1.2.

(** * Properties *)

(** ** Numbers and their text *)

Example parseInt_30 : parseInt "30" = Int 30.
Proof. reflexivity. Qed.
Example parseInt_ws : parseInt "  -12px" = Int (-12).
Proof. reflexivity. Qed.
Example parseInt_hex : parseInt "0x1f" = Int 31.
Proof. reflexivity. Qed.
Example parseInt_nan : parseInt "NaN" = NaN.
Proof. reflexivity. Qed.
Example toString_31 : num_toString (Int 31) = "31".
Proof. reflexivity. Qed.
Example toString_0 : num_toString (Int 0) = "0".
Proof. reflexivity. Qed.
Example toString_neg : num_toString (Int (-7)) = "-7".
Proof. reflexivity. Qed.
Example estimate_8 : estimateTokens "hi there" = 6%Z.
Proof. reflexivity. Qed.

(** ** Running the monad *)

Lemma bind_val {A B} (m : M A) (k : A → M B) w a w1 t1 :
  m w = (Val a, w1, t1) →
  bind m k w = (let '(r, w2, t2) := k a w1 in (r, w2, t1 ++ t2)).
Proof. intros E. unfold bind. rewrite E. by destruct (k a w1) as [[??]?]. Qed.

Lemma bind_exn {A B} (m : M A) (k : A → M B) w w1 t1 :
  m w = (Exn, w1, t1) → bind m k w = (Exn, w1, t1).
Proof. intros E. unfold bind. by rewrite E. Qed.

Lemma returns_ret {A} (a : A) w : returns (ret a) w a w.
Proof. by exists []. Qed.

Lemma returns_bind {A B} (m : M A) (k : A → M B) w a w1 b w2 :
  returns m w a w1 → returns (k a) w1 b w2 → returns (bind m k) w b w2.
Proof.
  intros [t1 E1] [t2 E2]. exists (t1 ++ t2).
  by rewrite (bind_val _ _ _ _ _ _ E1), E2.
Qed.

Lemma kv_call_up {A} op (f : World → A * World) w :
  kv_fault w (kv_ops w) = false →
  kv_call op f w = ((Val (f (count_op w)).1), (f (count_op w)).2, [mkEvent op true]).
Proof. intros H. unfold kv_call. rewrite H. by destruct (f (count_op w)). Qed.

Lemma kv_call_down {A} op (f : World → A * World) w :
  kv_fault w (kv_ops w) = true →
  kv_call op f w = (Exn, count_op w, [mkEvent op false]).
Proof. intros H. unfold kv_call. by rewrite H. Qed.

Lemma reliable_count_op w : reliable w → reliable (count_op w).
Proof. done. Qed.

Lemma reliable_set_chat_db d w : reliable w → reliable (set_chat_db d w).
Proof. done. Qed.

Lemma db_get_returns key w :
  reliable w → returns (db_get key) w (chat_db w !! key) (count_op w).
Proof. intros H. eexists. unfold db_get. by rewrite kv_call_up. Qed.

Lemma db_put_returns key v w :
  reliable w →
  returns (db_put key v) w tt (set_chat_db (<[key := v]> (chat_db w)) (count_op w)).
Proof. intros H. eexists. unfold db_put. by rewrite kv_call_up. Qed.

Lemma db_delete_returns key w :
  reliable w →
  returns (db_delete key) w tt (set_chat_db (delete key (chat_db w)) (count_op w)).
Proof. intros H. eexists. unfold db_delete. by rewrite kv_call_up. Qed.

(** ** Keys *)

Lemma append_inj_r (p s1 s2 : string) : p +:+ s1 = p +:+ s2 → s1 = s2.
Proof. induction p as [|c p IH]; simpl; [done|]. intros [= E]. auto. Qed.

Lemma msg_key_inj conv i j : msg_key conv i = msg_key conv j → i = j.
Proof.
  unfold msg_key. intros E.
  do 3 apply append_inj_r in E. exact E.
Qed.

Lemma msg_key_conv_key conv i conv' : msg_key conv i ≠ conv_key conv'.
Proof. unfold msg_key, conv_key. simpl. intros [=]. Qed.

Lemma saveMessage_returns m w :
  reliable w → list_typed (chat_db w) (conversationId m) →
  ∃ w', returns (saveMessage m) w tt w'
        ∧ chat_db w' = save_db m (chat_db w) ∧ reliable w'.
Proof.
  intros Hr Ht. unfold saveMessage, save_db, ids_at.
  set (conv := conversationId m).
  assert (Hk : <[msg_key conv (id m) := JMessage m]> (chat_db w) !! conv_key conv
               = chat_db w !! conv_key conv).
  { apply lookup_insert_ne, msg_key_conv_key. }
  destruct (chat_db w !! conv_key conv) as [[m'|l]|] eqn:El.
  - by destruct (Ht m').
  - destruct (100 <? length (l ++ [id m]))%nat eqn:Elen.
    + destruct l as [|i l]; [done|]. eexists. split; [|split].
      * eapply returns_bind; [by apply db_put_returns|].
        eapply returns_bind; [by apply db_get_returns|]. simpl. rewrite Hk.
        eapply returns_bind; [apply returns_ret|]. rewrite Elen. simpl.
        eapply returns_bind.
        { eapply returns_bind; [by apply db_delete_returns|]. apply returns_ret. }
        by apply db_put_returns.
      * done.
      * done.
    + eexists. split; [|split].
      * eapply returns_bind; [by apply db_put_returns|].
        eapply returns_bind; [by apply db_get_returns|]. simpl. rewrite Hk.
        eapply returns_bind; [apply returns_ret|]. rewrite Elen.
        eapply returns_bind; [apply returns_ret|].
        by apply db_put_returns.
      * done.
      * done.
  - eexists. split; [|split].
    + eapply returns_bind; [by apply db_put_returns|].
      eapply returns_bind; [by apply db_get_returns|]. simpl. rewrite Hk.
      eapply returns_bind; [apply returns_ret|]. simpl.
      eapply returns_bind; [apply returns_ret|].
      by apply db_put_returns.
    + done.
    + done.
Qed.

(** ** The last [n] elements *)

Lemma slice_last_short {A} n (l : list A) : length l ≤ n → slice_last n l = l.
Proof. intros H. unfold slice_last. by replace (length l - n) with 0 by lia. Qed.

Lemma length_slice_last {A} n (l : list A) :
  length (slice_last n l) = length l `min` n.
Proof. unfold slice_last. rewrite length_drop. lia. Qed.

Lemma drop_succ_tail {A} n (l : list A) : drop (S n) l = tail (drop n l).
Proof.
  revert l. induction n as [|n IH]; intros [|x l]; simpl; try done.
Qed.

(** Pushing an element and shifting when the bound is passed keeps the last
    [n] elements. *)
Lemma slice_last_snoc {A} n (l : list A) x :
  0 < n →
  slice_last n (l ++ [x]) =
  if (n <? length (slice_last n l ++ [x]))%nat
  then tail (slice_last n l ++ [x]) else slice_last n l ++ [x].
Proof.
  intros Hn. rewrite length_app, length_slice_last. simpl.
  destruct (Nat.ltb_spec n (length l `min` n + 1)) as [H|H].
  - unfold slice_last. rewrite length_app. simpl.
    replace (length l + 1 - n) with (S (length l - n)) by lia.
    rewrite drop_succ_tail, drop_app_le by lia.
    done.
  - rewrite (slice_last_short n l) by lia.
    apply slice_last_short. rewrite length_app. simpl. lia.
Qed.

Lemma evicted_slice_last {A} n (l : list A) : evicted n l ++ slice_last n l = l.
Proof. apply take_drop. Qed.

Lemma evicted_snoc {A} n (l : list A) x :
  0 < n →
  evicted n (l ++ [x]) =
  if (n <? length (slice_last n l ++ [x]))%nat
  then evicted n l ++ take 1 (slice_last n l ++ [x]) else evicted n l.
Proof.
  intros Hn. rewrite length_app, length_slice_last. simpl.
  unfold evicted, slice_last. rewrite length_app. simpl.
  destruct (Nat.ltb_spec n (length l `min` n + 1)) as [H|H].
  - replace (length l + 1 - n) with (S (length l - n)) by lia.
    rewrite take_app_le by lia.
    destruct (drop (length l - n) l) as [|y r] eqn:E.
    { apply (f_equal length) in E. rewrite length_drop in E. simpl in E. lia. }
    simpl. rewrite take_0.
    assert (Hy : l !! (length l - n) = Some y).
    { rewrite <- (Nat.add_0_r (length l - n)), <- lookup_drop. by rewrite E. }
    by apply take_S_r.
  - replace (length l + 1 - n) with 0 by lia.
    replace (length l - n) with 0 by lia. done.
Qed.

(** ** The bounded log *)

Section Log.
Variable conv : string.

Lemma log_inv_nil d : d !! conv_key conv = None → log_inv conv [] d.
Proof.
  intros H. split.
  - unfold ids_at. by rewrite H.
  - intros m. by rewrite H.
  - intros m Hm. by apply elem_of_nil in Hm.
  - intros m Hm. by apply elem_of_nil in Hm.
Qed.

Lemma log_inv_snoc ms d m :
  log_inv conv ms d → conversationId m = conv → NoDup (id <$> (ms ++ [m])) →
  log_inv conv (ms ++ [m]) (save_db m d).
Proof.
  intros [Hids Hty Hkept Hgone] Hc Hnd.
  assert (Hfresh : ∀ x, x ∈ ms → id x ≠ id m).
  { rewrite fmap_app in Hnd. apply NoDup_app in Hnd as (_ & Hd & _).
    intros x Hx E. apply (Hd (id x)); [by apply list_elem_of_fmap_2|].
    rewrite E. simpl. apply list_elem_of_here. }
  assert (Hsplit : ms = evicted 100 ms ++ slice_last 100 ms)
    by (symmetry; apply evicted_slice_last).
  assert (Hin : ∀ x, x ∈ slice_last 100 ms → x ∈ ms).
  { intros x Hx. rewrite Hsplit. apply elem_of_app. by right. }
  assert (Hout : ∀ x, x ∈ evicted 100 ms → x ∈ ms).
  { intros x Hx. rewrite Hsplit. apply elem_of_app. by left. }
  assert (Hndw : NoDup (id <$> slice_last 100 ms)).
  { rewrite fmap_app in Hnd. apply NoDup_app in Hnd as (Hn & _).
    rewrite Hsplit, fmap_app in Hn. by apply NoDup_app in Hn as (_ & _ & Hn). }
  assert (Hcross : ∀ x y, x ∈ evicted 100 ms → y ∈ slice_last 100 ms →
                          id x ≠ id y).
  { rewrite fmap_app in Hnd. apply NoDup_app in Hnd as (Hn & _).
    rewrite Hsplit, fmap_app in Hn. apply NoDup_app in Hn as (_ & Hn & _).
    intros x y Hx Hy E. apply (Hn (id x)); [by apply list_elem_of_fmap_2|].
    rewrite E. by apply list_elem_of_fmap_2. }
  unfold save_db. rewrite Hc, Hids.
  replace ((id <$> slice_last 100 ms) ++ [id m])
    with (id <$> (slice_last 100 ms ++ [m])) by (by rewrite fmap_app).
  rewrite length_fmap.
  pose proof (slice_last_snoc 100 ms m ltac:(lia)) as Hw.
  pose proof (evicted_snoc 100 ms m ltac:(lia)) as He.
  destruct (100 <? length (slice_last 100 ms ++ [m])) eqn:Elen.
  - (* the oldest id is shifted out and its record deleted *)
    destruct (slice_last 100 ms) as [|y r] eqn:Ew.
    { simpl in Elen. by apply Nat.ltb_lt in Elen; lia. }
    simpl in Hw, He |- *. rewrite take_0 in He.
    assert (Hym : id y ≠ id m) by (apply Hfresh, Hin; left).
    assert (Hyr : ∀ x, x ∈ r → id x ≠ id y).
    { simpl in Hndw. apply NoDup_cons in Hndw as [Hy _].
      intros x Hx E. apply Hy. rewrite <- E. by apply list_elem_of_fmap_2. }
    split.
    + unfold ids_at. rewrite lookup_insert_eq. by rewrite Hw.
    + intros m'. by rewrite lookup_insert_eq.
    + intros x Hx. rewrite Hw in Hx.
      rewrite lookup_insert_ne by (intros E; symmetry in E; by apply msg_key_conv_key in E).
      apply elem_of_app in Hx as [Hx|Hx].
      * rewrite lookup_delete_ne by (intros E; apply msg_key_inj in E; by apply (Hyr x)).
        rewrite lookup_insert_ne
          by (intros E; apply msg_key_inj in E; apply (Hfresh x); [apply Hin; by right|done]).
        apply Hkept. by right.
      * apply list_elem_of_singleton in Hx as ->.
        rewrite lookup_delete_ne by (intros E; by apply msg_key_inj in E).
        by rewrite lookup_insert_eq.
    + intros x Hx. rewrite He in Hx.
      rewrite lookup_insert_ne by (intros E; symmetry in E; by apply msg_key_conv_key in E).
      apply elem_of_app in Hx as [Hx|Hx].
      * rewrite lookup_delete_ne
          by (intros E; apply msg_key_inj in E; apply (Hcross x y); [done|left|done]).
        rewrite lookup_insert_ne
          by (intros E; apply msg_key_inj in E; apply (Hfresh x); [by apply Hout|done]).
        by apply Hgone.
      * apply list_elem_of_singleton in Hx as ->. apply lookup_delete_eq.
  - split.
    + unfold ids_at. rewrite lookup_insert_eq. by rewrite Hw.
    + intros m'. by rewrite lookup_insert_eq.
    + intros x Hx. rewrite Hw in Hx.
      rewrite lookup_insert_ne by (intros E; symmetry in E; by apply msg_key_conv_key in E).
      apply elem_of_app in Hx as [Hx|Hx].
      * rewrite lookup_insert_ne
          by (intros E; apply msg_key_inj in E; apply (Hfresh x); [by apply Hin|done]).
        by apply Hkept.
      * apply list_elem_of_singleton in Hx as ->. by rewrite lookup_insert_eq.
    + intros x Hx. rewrite He in Hx.
      rewrite lookup_insert_ne by (intros E; symmetry in E; by apply msg_key_conv_key in E).
      rewrite lookup_insert_ne
        by (intros E; apply msg_key_inj in E; apply (Hfresh x); [by apply Hout|done]).
      by apply Hgone.
Qed.
End Log.

(** ** Reading the log *)

Lemma collect_messages_returns conv ids acc w :
  reliable w → records_typed conv (chat_db w) ids →
  ∃ w', returns (collect_messages conv ids acc) w
                (acc ++ existing_records conv (chat_db w) ids) w'
        ∧ chat_db w' = chat_db w ∧ reliable w'.
Proof.
  revert acc w. induction ids as [|mid ids IH]; intros acc w Hr Ht.
  - exists w. split; [|done]. simpl. rewrite app_nil_r. apply returns_ret.
  - assert (Ht' : records_typed conv (chat_db (count_op w)) ids).
    { intros i l Hi. apply Ht. by right. }
    unfold existing_records. simpl.
    destruct (chat_db w !! msg_key conv mid) as [[m|l]|] eqn:E.
    + destruct (IH (acc ++ [m]) (count_op w)) as (w' & Hrun & Hd & Hr'); [done..|].
      exists w'. split; [|done].
      eapply returns_bind; [by apply db_get_returns|]. rewrite E.
      rewrite <- app_assoc in Hrun. exact Hrun.
    + destruct (Ht mid l); [left|done].
    + destruct (IH acc (count_op w)) as (w' & Hrun & Hd & Hr'); [done..|].
      exists w'. split; [|done].
      eapply returns_bind; [by apply db_get_returns|]. by rewrite E.
Qed.

Lemma getConversationMessages_returns conv ids w :
  reliable w → chat_db w !! conv_key conv = Some (JIds ids) →
  records_typed conv (chat_db w) ids →
  ∃ w', returns (getConversationMessages conv) w
                (sort_by_timestamp (existing_records conv (chat_db w) ids)) w'
        ∧ chat_db w' = chat_db w ∧ reliable w'.
Proof.
  intros Hr El Ht.
  destruct (collect_messages_returns conv ids [] (count_op w)) as (w' & Hrun & Hd & Hr');
    [done..|].
  exists w'. split; [|done].
  eapply returns_bind; [by apply db_get_returns|]. rewrite El.
  eapply returns_bind; [apply returns_ret|].
  eapply returns_bind; [exact Hrun|]. apply returns_ret.
Qed.

Lemma getConversationMessages_unknown conv w :
  reliable w → chat_db w !! conv_key conv = None →
  returns (getConversationMessages conv) w [] (count_op w).
Proof.
  intros Hr El. eapply returns_bind; [by apply db_get_returns|].
  rewrite El. apply returns_ret.
Qed.

(** ** Sorting by timestamp *)

Lemma insert_by_timestamp_perm m l : insert_by_timestamp m l ≡ₚ m :: l.
Proof.
  induction l as [|x l IH]; simpl; [done|].
  destruct (timestamp m <=? timestamp x)%Z; [done|].
  rewrite IH. apply Permutation_swap.
Qed.

Lemma sort_by_timestamp_perm l : sort_by_timestamp l ≡ₚ l.
Proof.
  induction l as [|x l IH]; simpl; [done|].
  by rewrite insert_by_timestamp_perm, IH.
Qed.

Lemma insert_by_timestamp_sorted m l :
  Sorted timestamp_le l → Sorted timestamp_le (insert_by_timestamp m l).
Proof.
  induction 1 as [|x l Hs IH Hhd]; simpl.
  - by repeat constructor.
  - destruct (Z.leb_spec (timestamp m) (timestamp x)) as [Hle|Hlt].
    + by repeat constructor.
    + constructor; [done|].
      destruct l as [|y l]; simpl.
      * constructor. unfold timestamp_le. lia.
      * inversion Hhd; subst.
        destruct (timestamp m <=? timestamp y)%Z; constructor; [|done].
        unfold timestamp_le. lia.
Qed.

Lemma sort_by_timestamp_sorted l : Sorted timestamp_le (sort_by_timestamp l).
Proof.
  induction l as [|x l IH]; simpl; [constructor|].
  by apply insert_by_timestamp_sorted.
Qed.

(** A list already in order comes back as it is: the sort is stable. *)
Lemma sort_by_timestamp_id l : Sorted timestamp_le l → sort_by_timestamp l = l.
Proof.
  induction 1 as [|x l Hs IH Hhd]; simpl; [done|].
  fold (sort_by_timestamp l). rewrite IH.
  destruct Hhd as [|y l Hxy]; simpl; [done|].
  unfold timestamp_le in Hxy.
  by destruct (Z.leb_spec (timestamp x) (timestamp y)); [|lia].
Qed.

Lemma Sorted_drop {A} (R : A → A → Prop) n l : Sorted R l → Sorted R (drop n l).
Proof.
  revert l. induction n as [|n IH]; intros l Hs; [done|].
  destruct l as [|x l]; simpl; [done|]. apply IH. by inversion Hs.
Qed.

(** ** Appending *)

Lemma save_all_returns conv ms : ∀ pre w,
  reliable w → log_inv conv pre (chat_db w) →
  Forall (λ m, conversationId m = conv) ms →
  NoDup (id <$> (pre ++ ms)) →
  ∃ w', returns (save_all ms) w tt w'
        ∧ log_inv conv (pre ++ ms) (chat_db w') ∧ reliable w'.
Proof.
  induction ms as [|m ms IH]; intros pre w Hr Hinv Hc Hnd.
  - exists w. rewrite app_nil_r. split; [apply returns_ret|done].
  - apply Forall_cons in Hc as [Hm Hc].
    rewrite cons_middle, app_assoc in Hnd |- *.
    assert (Hnd1 : NoDup (id <$> (pre ++ [m]))).
    { rewrite fmap_app in Hnd. by apply NoDup_app in Hnd as (? & _). }
    destruct (saveMessage_returns m w) as (w1 & Hrun1 & Hd1 & Hr1);
      [done|rewrite Hm; by apply (inv_typed _ _ _ Hinv)|].
    destruct (IH (pre ++ [m]) w1) as (w' & Hrun & Hinv' & Hr'); [done| |done..|].
    { rewrite Hd1. by apply log_inv_snoc. }
    exists w'. split; [|done].
    eapply returns_bind; [exact Hrun1|exact Hrun].
Qed.

Lemma existing_records_kept conv d l :
  (∀ m, m ∈ l → d !! msg_key conv (id m) = Some (JMessage m)) →
  existing_records conv d (id <$> l) = l.
Proof.
  induction l as [|x l IH]; intros H; [done|].
  unfold existing_records. simpl. rewrite (H x) by left.
  simpl. f_equal. apply IH. intros m Hm. apply H. by right.
Qed.

Lemma log_inv_read conv ms w :
  reliable w → log_inv conv ms (chat_db w) → Sorted timestamp_le ms →
  ∃ w', returns (getConversationMessages conv) w (slice_last 100 ms) w'
        ∧ chat_db w' = chat_db w ∧ reliable w'.
Proof.
  intros Hr [Hids Hty Hkept Hgone] Hs.
  assert (Hsort : sort_by_timestamp (slice_last 100 ms) = slice_last 100 ms).
  { apply sort_by_timestamp_id. by apply Sorted_drop. }
  unfold ids_at in Hids.
  destruct (chat_db w !! conv_key conv) as [[m|ids]|] eqn:El.
  - by destruct (Hty m).
  - subst ids.
    destruct (getConversationMessages_returns conv _ w Hr El) as (w' & Hrun & Hd & Hr').
    { intros mid l Hmid. apply list_elem_of_fmap in Hmid as (m & -> & Hm).
      by rewrite (Hkept m Hm). }
    exists w'. split; [|done].
    by rewrite (existing_records_kept _ _ _ Hkept), Hsort in Hrun.
  - exists (count_op w). split; [|done].
    symmetry in Hids. apply fmap_nil_inv in Hids. rewrite Hids.
    by apply getConversationMessages_unknown.
Qed.

(** C1.  Starting from a conversation the store does not know, after the
    appends of more than 100 messages of that conversation (distinct ids,
    timestamps in append order) to a store that answers, [read] returns
    exactly the 100 most recently appended messages in append order, and the
    record of every message shifted out is no longer in the store. *)
Theorem fifo_eviction_at_capacity conv (ms : list Message) w :
  reliable w → chat_db w !! conv_key conv = None →
  Forall (λ m, conversationId m = conv) ms →
  NoDup (id <$> ms) → Sorted timestamp_le ms →
  100 < length ms →
  ∃ w1, returns (save_all ms) w tt w1
    ∧ (∃ w2, returns (getConversationMessages conv) w1 (slice_last 100 ms) w2)
    ∧ length (slice_last 100 ms) = 100
    ∧ ms = evicted 100 ms ++ slice_last 100 ms
    ∧ ∀ m, m ∈ evicted 100 ms →
           ∃ w2, returns (db_get (msg_key conv (id m))) w1 None w2.
Proof.
  intros Hr Hnone Hc Hnd Hs Hlen.
  destruct (save_all_returns conv ms [] w) as (w1 & Hrun & Hinv & Hr1);
    [done|by apply log_inv_nil|done..|].
  simpl in Hinv. exists w1. split; [done|]. split; [|split; [|split]].
  - destruct (log_inv_read conv ms w1) as (w2 & Hread & _); [done..|].
    by exists w2.
  - rewrite length_slice_last. lia.
  - symmetry. apply evicted_slice_last.
  - intros m Hm. exists (count_op w1).
    rewrite <- (inv_gone _ _ _ Hinv m Hm). by apply db_get_returns.
Qed.

Lemma numbered_messages_sorted conv n :
  Sorted timestamp_le (numbered_messages conv n).
Proof.
  unfold numbered_messages. generalize 0.
  induction n as [|n IH]; intros a; simpl; constructor; [apply IH|].
  destruct n; simpl; constructor. unfold timestamp_le. simpl. lia.
Qed.

Lemma fifo_eviction_at_capacity_witness :
  ∃ w1, returns (save_all (numbered_messages "c" 101)) (quiet_world silent_reply) tt w1
    ∧ (∃ w2, returns (getConversationMessages "c") w1
                     (slice_last 100 (numbered_messages "c" 101)) w2)
    ∧ length (slice_last 100 (numbered_messages "c" 101)) = 100
    ∧ numbered_messages "c" 101
      = evicted 100 (numbered_messages "c" 101)
        ++ slice_last 100 (numbered_messages "c" 101)
    ∧ ∀ m, m ∈ evicted 100 (numbered_messages "c" 101) →
           ∃ w2, returns (db_get (msg_key "c" (id m))) w1 None w2.
Proof.
  apply fifo_eviction_at_capacity.
  - intros n. reflexivity.
  - reflexivity.
  - vm_compute. repeat constructor.
  - (refine (bool_decide_unpack _ _); vm_compute; reflexivity).
  - apply numbered_messages_sorted.
  - vm_compute. lia.
Defined.

(** C9.  With no id list stored for a conversation, [read] asks for the
    list, gets nothing, and returns the empty sequence without raising. *)
Theorem read_unknown_conversation conv w :
  kv_fault w (kv_ops w) = false → chat_db w !! conv_key conv = None →
  getConversationMessages conv w
  = (Val [], count_op w, [mkEvent (DbGet (conv_key conv)) true]).
Proof.
  intros Hup El. unfold getConversationMessages.
  erewrite bind_val by (unfold db_get; by rewrite kv_call_up).
  simpl. by rewrite El.
Qed.

Lemma read_unknown_conversation_witness :
  getConversationMessages "nobody" (quiet_world silent_reply)
  = (Val [], count_op (quiet_world silent_reply),
     [mkEvent (DbGet (conv_key "nobody")) true]).
Proof. apply read_unknown_conversation; reflexivity. Defined.

Lemma elem_of_existing_records conv d ids m :
  m ∈ existing_records conv d ids
  ↔ ∃ mid, mid ∈ ids ∧ d !! msg_key conv mid = Some (JMessage m).
Proof.
  unfold existing_records. rewrite list_elem_of_omap. split.
  - intros (mid & Hin & H). exists mid. split; [done|].
    destruct (d !! msg_key conv mid) as [[m'|l]|]; naive_solver.
  - intros (mid & Hin & H). exists mid. by rewrite H.
Qed.

(** C10.  When the id list names ids that have no record, [read] does not
    fail: it returns the records that exist, each listed id contributing
    its message if it has one, in the order of their timestamps. *)
Theorem read_skips_missing_records conv ids w :
  reliable w → chat_db w !! conv_key conv = Some (JIds ids) →
  records_typed conv (chat_db w) ids →
  ∃ r w', returns (getConversationMessages conv) w r w'
    ∧ r = sort_by_timestamp (existing_records conv (chat_db w) ids)
    ∧ r ≡ₚ existing_records conv (chat_db w) ids
    ∧ Sorted timestamp_le r
    ∧ (∀ m, m ∈ r ↔ ∃ mid, mid ∈ ids
                      ∧ chat_db w !! msg_key conv mid = Some (JMessage m))
    ∧ chat_db w' = chat_db w.
Proof.
  intros Hr El Ht.
  destruct (getConversationMessages_returns conv ids w) as (w' & Hrun & Hd & _);
    [done..|].
  eexists _, w'. split; [exact Hrun|]. split; [done|].
  split; [apply sort_by_timestamp_perm|].
  split; [apply sort_by_timestamp_sorted|]. split; [|done].
  intros m. rewrite sort_by_timestamp_perm. apply elem_of_existing_records.
Qed.

Lemma read_skips_missing_records_witness :
  ∃ r w', returns (getConversationMessages "c") dangling_world r w'
    ∧ r = sort_by_timestamp
            (existing_records "c" (chat_db dangling_world) ["a"; "ghost"; "b"])
    ∧ r ≡ₚ existing_records "c" (chat_db dangling_world) ["a"; "ghost"; "b"]
    ∧ Sorted timestamp_le r
    ∧ (∀ m, m ∈ r ↔ ∃ mid, mid ∈ ["a"; "ghost"; "b"]
                      ∧ chat_db dangling_world !! msg_key "c" mid
                        = Some (JMessage m))
    ∧ chat_db w' = chat_db dangling_world.
Proof.
  apply read_skips_missing_records.
  - intros n. reflexivity.
  - reflexivity.
  - intros mid l Hin.
    repeat (apply elem_of_cons in Hin as [->|Hin]); [by vm_compute..|].
    by apply elem_of_nil in Hin.
Defined.

Example read_dangling_list :
  (getConversationMessages "c" dangling_world).1.1
  = Val [early_message; late_message].
Proof. reflexivity. Qed.

(** ** Clearing *)

Lemma delete_records_returns conv ids w :
  reliable w →
  ∃ w', returns (delete_records conv ids) w tt w'
        ∧ chat_db w' = delete_all conv ids (chat_db w) ∧ reliable w'.
Proof.
  revert w. induction ids as [|mid ids IH]; intros w Hr.
  - exists w. split; [apply returns_ret|done].
  - destruct (IH (set_chat_db (delete (msg_key conv mid) (chat_db w)) (count_op w)))
      as (w' & Hrun & Hd & Hr'); [done|].
    exists w'. split; [|done].
    eapply returns_bind; [by apply db_delete_returns|exact Hrun].
Qed.

Lemma delete_all_none conv ids d key :
  d !! key = None → delete_all conv ids d !! key = None.
Proof.
  revert d. induction ids as [|mid ids IH]; intros d H; [done|].
  simpl. apply IH. rewrite lookup_delete. by case_decide.
Qed.

Lemma delete_all_listed conv ids d mid :
  mid ∈ ids → delete_all conv ids d !! msg_key conv mid = None.
Proof.
  revert d. induction ids as [|i ids IH]; intros d Hin.
  - by apply elem_of_nil in Hin.
  - simpl. destruct (decide (mid = i)) as [->|Hne].
    + apply delete_all_none, lookup_delete_eq.
    + apply IH. apply elem_of_cons in Hin as [|]; done.
Qed.

Lemma clearConversationMessages_returns conv w :
  reliable w → list_typed (chat_db w) conv →
  ∃ w', returns (clearConversationMessages conv) w tt w'
        ∧ chat_db w' !! conv_key conv = None
        ∧ (∀ mid, mid ∈ ids_at (chat_db w) conv →
                  chat_db w' !! msg_key conv mid = None)
        ∧ (chat_db w !! conv_key conv = None → chat_db w' = chat_db w)
        ∧ reliable w'.
Proof.
  intros Hr Ht. unfold ids_at.
  destruct (chat_db w !! conv_key conv) as [[m|ids]|] eqn:El.
  - by destruct (Ht m).
  - destruct (delete_records_returns conv ids (count_op w)) as (w1 & Hrun & Hd & Hr1);
      [done|].
    eexists. split; [|split; [|split; [|split]]].
    + eapply returns_bind; [by apply db_get_returns|]. rewrite El.
      eapply returns_bind; [apply returns_ret|].
      eapply returns_bind; [exact Hrun|]. by apply db_delete_returns.
    + apply lookup_delete_eq.
    + intros mid Hin. simpl. rewrite Hd.
      rewrite lookup_delete_ne by (intros E; symmetry in E; by apply msg_key_conv_key in E).
      by apply delete_all_listed.
    + done.
    + done.
  - exists (count_op w). split; [|split; [done|split; [|done]]].
    + eapply returns_bind; [by apply db_get_returns|]. rewrite El. apply returns_ret.
    + intros mid Hin. by apply elem_of_nil in Hin.
Qed.

(** C8.  On a store that answers, whatever a conversation holds (a list of
    any size, an empty list, or nothing at all), [clear] succeeds, a [read]
    after it yields the empty sequence, the records the list named are gone,
    and a second [clear] succeeds as well and changes nothing; clearing an
    unknown conversation leaves the store as it was. *)
Theorem clear_then_read_is_empty conv w :
  reliable w → list_typed (chat_db w) conv →
  ∃ w1, returns (clearConversationMessages conv) w tt w1
    ∧ (∃ w2, returns (getConversationMessages conv) w1 [] w2)
    ∧ (∀ mid, mid ∈ ids_at (chat_db w) conv →
              chat_db w1 !! msg_key conv mid = None)
    ∧ (∃ w3, returns (clearConversationMessages conv) w1 tt w3
             ∧ chat_db w3 = chat_db w1)
    ∧ (chat_db w !! conv_key conv = None → chat_db w1 = chat_db w).
Proof.
  intros Hr Ht.
  destruct (clearConversationMessages_returns conv w)
    as (w1 & Hrun & Hgone & Hrec & Hsame & Hr1); [done..|].
  exists w1. split; [done|]. split; [|split; [done|split; [|done]]].
  - exists (count_op w1). by apply getConversationMessages_unknown.
  - destruct (clearConversationMessages_returns conv w1)
      as (w3 & Hrun3 & _ & _ & Hsame3 & _); [done| |].
    { intros m. by rewrite Hgone. }
    exists w3. split; [done|]. by apply Hsame3.
Qed.

Lemma clear_then_read_is_empty_witness :
  ∃ w1, returns (clearConversationMessages "c") dangling_world tt w1
    ∧ (∃ w2, returns (getConversationMessages "c") w1 [] w2)
    ∧ (∀ mid, mid ∈ ids_at (chat_db dangling_world) "c" →
              chat_db w1 !! msg_key "c" mid = None)
    ∧ (∃ w3, returns (clearConversationMessages "c") w1 tt w3
             ∧ chat_db w3 = chat_db w1)
    ∧ (chat_db dangling_world !! conv_key "c" = None →
       chat_db w1 = chat_db dangling_world).
Proof.
  apply clear_then_read_is_empty.
  - intros n. reflexivity.
  - intros m. by vm_compute.
Defined.

(** ** The prompt sent upstream *)

Lemma callDeepSeekAPI_trace text history model temperature maxTokens w :
  ∃ ok, trace_of (callDeepSeekAPI text history model temperature maxTokens) w
        = [mkEvent (Fetch (mkRequestBody model (prompt_messages text history)
                                         temperature maxTokens false)) ok].
Proof.
  unfold trace_of, callDeepSeekAPI, bind, fetch_completion.
  destruct (outcome (upstream w _)) as [|status|[data|]]; simpl; eauto.
  destruct (first_choice data); simpl; eauto.
Qed.

Lemma prompt_messages_length text history :
  length (prompt_messages text history) = length history `min` 20 + 2.
Proof.
  unfold prompt_messages.
  rewrite !length_app, length_map, length_slice_last. simpl. lia.
Qed.

(** A history of 25 messages yields a prompt of 22 messages, one short of
    the 23 of C3. *)
Lemma prompt_of_25_has_22 :
  trace_of (callDeepSeekAPI "hi" (numbered_messages "c" 25)
                            (Some "deepseek-chat") None None)
           (quiet_world silent_reply)
  = [mkEvent (Fetch (mkRequestBody (Some "deepseek-chat")
                       (prompt_messages "hi" (numbered_messages "c" 25))
                       None None false)) false]
  ∧ length (prompt_messages "hi" (numbered_messages "c" 25)) = 22
  ∧ length (prompt_messages "hi" (numbered_messages "c" 25)) ≠ 23.
Proof. split; [reflexivity|]. split; [reflexivity|]. by vm_compute. Qed.

(** C3, amended.  The upstream call is made once, and for every history
    its prompt is the fixed system instruction, then the most recent 20
    messages of the history (all of them when there are fewer), oldest of
    them first, then the current user message; the older messages are left
    out.  For a history of 25 messages that is exactly 22 messages: the
    system instruction, the last 20 of the history, the user message. *)
Theorem upstream_prompt_of_25 text history model temperature maxTokens w :
  (∃ ok, trace_of (callDeepSeekAPI text history model temperature maxTokens) w
         = [mkEvent (Fetch (mkRequestBody model (prompt_messages text history)
                                          temperature maxTokens false)) ok])
  ∧ prompt_messages text history
    = mkChatMessage "system" system_instruction
      :: map (λ m, mkChatMessage (role_lower (role m)) (content m))
             (drop (length history - 20) history)
      ++ [mkChatMessage "user" text]
  ∧ history = take (length history - 20) history
              ++ drop (length history - 20) history
  ∧ length (drop (length history - 20) history) = length history `min` 20
  ∧ length (prompt_messages text history) = length history `min` 20 + 2
  ∧ (length history = 25 →
     prompt_messages text history
     = mkChatMessage "system" system_instruction
       :: map (λ m, mkChatMessage (role_lower (role m)) (content m))
              (drop 5 history)
       ++ [mkChatMessage "user" text]
     ∧ length (drop 5 history) = 20
     ∧ length (prompt_messages text history) = 22).
Proof.
  split; [apply callDeepSeekAPI_trace|].
  split; [done|]. split; [by rewrite take_drop|].
  split; [rewrite length_drop; lia|].
  split; [apply prompt_messages_length|].
  intros Hlen. split; [|split].
  - unfold prompt_messages, slice_last. by rewrite Hlen.
  - rewrite length_drop. lia.
  - rewrite prompt_messages_length. lia.
Qed.

Lemma upstream_prompt_of_25_witness :
  (∃ ok, trace_of (callDeepSeekAPI "hi" (numbered_messages "c" 25)
                                   (Some "deepseek-chat") None None)
                  (quiet_world silent_reply)
         = [mkEvent (Fetch (mkRequestBody (Some "deepseek-chat")
                              (prompt_messages "hi" (numbered_messages "c" 25))
                              None None false)) ok])
  ∧ prompt_messages "hi" (numbered_messages "c" 25)
    = mkChatMessage "system" system_instruction
      :: map (λ m, mkChatMessage (role_lower (role m)) (content m))
             (drop 5 (numbered_messages "c" 25))
      ++ [mkChatMessage "user" "hi"]
  ∧ length (drop 5 (numbered_messages "c" 25)) = 20
  ∧ length (prompt_messages "hi" (numbered_messages "c" 25)) = 22.
Proof.
  split; [apply (upstream_prompt_of_25 "hi" (numbered_messages "c" 25))|].
  apply (upstream_prompt_of_25 "hi" (numbered_messages "c" 25)
           (Some "deepseek-chat") None None (quiet_world silent_reply)).
  reflexivity.
Defined.

(** A history of 30 messages: the messages from the eleventh on are
    forwarded, the first ten are not; a history of 3 messages is forwarded
    whole. *)
Example prompt_of_30_forwards_the_last_20 :
  prompt_messages "hi" (numbered_messages "c" 30)
  = mkChatMessage "system" system_instruction
    :: map (λ m, mkChatMessage "user" "text")
           (filter (λ m, (10 ≤ timestamp m)%Z) (numbered_messages "c" 30))
    ++ [mkChatMessage "user" "hi"]
  ∧ length (prompt_messages "hi" (numbered_messages "c" 30)) = 22
  ∧ length (prompt_messages "hi" (numbered_messages "c" 3)) = 5.
Proof. repeat split; reflexivity. Qed.

(** ** The rate limiter *)

Lemma checkRateLimit_cases ip w :
  let key := rate_key ip in
  let count := count_of (rate_lookup (clock w) (rate_limit w) key) in
  checkRateLimit ip w =
  if kv_fault w (kv_ops w) then
    (Val (mkRateLimitCheck true None None), count_op w,
     [mkEvent (RateGet key) false])
  else if num_geb count (Int limit) then
    (Val (mkRateLimitCheck false None (Some window)), count_op w,
     [mkEvent (RateGet key) true])
  else if kv_fault w (S (kv_ops w)) then
    (Val (mkRateLimitCheck true None None), count_op (count_op w),
     [mkEvent (RateGet key) true;
      mkEvent (RatePut key (num_toString (num_add count (Int 1))) window) false])
  else
    (Val (mkRateLimitCheck true
            (Some (num_sub (num_sub (Int limit) count) (Int 1))) None),
     set_rate_limit
       (<[key := mkRateEntry (num_toString (num_add count (Int 1)))
                             (clock w + 1000 * window)]> (rate_limit w))
       (count_op (count_op w)),
     [mkEvent (RateGet key) true;
      mkEvent (RatePut key (num_toString (num_add count (Int 1))) window) true]).
Proof.
  intros key count. unfold checkRateLimit, try_catch, bind, rate_get, rate_put, kv_call.
  fold key. destruct (kv_fault w (kv_ops w)) eqn:E1; [done|].
  fold (count_of (rate_lookup (clock (count_op w)) (rate_limit (count_op w)) key)).
  change (count_of _) with count.
  destruct (num_geb count (Int limit)); [done|].
  simpl. by destruct (kv_fault w (S (kv_ops w))).
Qed.

(** C6.  Whenever a call of the check to the counter store fails, be it the
    [get] or the [put], the check answers [allowed = true]. *)
Theorem rate_limiter_fails_open ip w :
  (∃ e, e ∈ trace_of (checkRateLimit ip) w ∧ ev_ok e = false) →
  (checkRateLimit ip w).1.1 = Val (mkRateLimitCheck true None None)
  ∧ ∀ r, (checkRateLimit ip w).1.1 = Val r → allowed r = true.
Proof.
  unfold trace_of. rewrite checkRateLimit_cases.
  destruct (kv_fault w (kv_ops w)); [by intros; split; [|intros r [= <-]]|].
  destruct (num_geb _ _).
  { intros (e & He & Hok). apply list_elem_of_singleton in He. by subst e. }
  destruct (kv_fault w (S (kv_ops w))); [by intros; split; [|intros r [= <-]]|].
  intros (e & He & Hok). simpl in He.
  apply elem_of_cons in He as [->|He]; [done|].
  apply list_elem_of_singleton in He. by subst e.
Qed.

Lemma rate_limiter_fails_open_witness :
  (checkRateLimit "203.0.113.7" down_world).1.1
  = Val (mkRateLimitCheck true None None)
  ∧ ∀ r, (checkRateLimit "203.0.113.7" down_world).1.1 = Val r → allowed r = true.
Proof.
  apply rate_limiter_fails_open.
  exists (mkEvent (RateGet (rate_key "203.0.113.7")) false).
  split; [|reflexivity]. vm_compute. left.
Defined.

Example get_fails_open :
  checkRateLimit "203.0.113.7" down_world
  = (Val (mkRateLimitCheck true None None), count_op down_world,
     [mkEvent (RateGet "rate:203.0.113.7") false]).
Proof. reflexivity. Qed.

Example put_fails_open :
  checkRateLimit "203.0.113.7" flaky_world
  = (Val (mkRateLimitCheck true None None), count_op (count_op flaky_world),
     [mkEvent (RateGet "rate:203.0.113.7") true;
      mkEvent (RatePut "rate:203.0.113.7" "1" 60) false]).
Proof. reflexivity. Qed.

Lemma count_of_toString (k : nat) :
  k ≤ 30 → count_of (Some (num_toString (Int (Z.of_nat k)))) = Int (Z.of_nat k).
Proof.
  intros H. do 31 (destruct k as [|k]; [reflexivity|]). lia.
Qed.

Lemma check_at_verdict ip t1 t k w :
  reliable w → counter_reads ip t1 (k `min` 30) w → in_window t1 t →
  ∃ w', returns (check_at ip t) w (verdict k) w'
        ∧ counter_reads ip t1 (S k `min` 30) w' ∧ reliable w'.
Proof.
  intros Hr Hc Ht.
  assert (Hrun : checkRateLimit ip (set_clock t w)
                 = checkRateLimit ip (set_clock t w)) by done.
  rewrite checkRateLimit_cases in Hrun at 2. simpl in Hrun.
  rewrite !Hr, (Hc t Ht) in Hrun. unfold check_at, returns, verdict.
  destruct (Nat.ltb_spec k 30) as [Hlt|Hge].
  - rewrite Nat.min_l in Hrun, Hc by lia. rewrite (Nat.min_l (S k)) by lia.
    unfold limit in Hrun. simpl in Hrun.
    destruct (Z.leb_spec 30 (Z.of_nat k)) as [?|_]; [lia|].
    replace (30 - Z.of_nat k - 1)%Z with (29 - Z.of_nat k)%Z in Hrun by lia.
    eexists. split; [eexists; exact Hrun|]. split; [|done].
    intros t' Ht'. simpl. unfold rate_lookup. rewrite lookup_insert_eq. simpl.
    unfold in_window, window in *.
    destruct (Z.ltb_spec t' (t + 1000 * 60)) as [_|?]; [|lia].
    replace (Z.of_nat k + 1)%Z with (Z.of_nat (S k)) by lia.
    apply count_of_toString. lia.
  - rewrite Nat.min_r in Hrun, Hc by lia. rewrite (Nat.min_r (S k)) by lia.
    unfold limit in Hrun. simpl in Hrun.
    eexists. split; [eexists; exact Hrun|]. split; [|done].
    intros t' Ht'. simpl. apply (Hc t' Ht').
Qed.

(** Any number of checks inside one window: the first 30 pass, the later
    ones are turned away. *)
Lemma checks_at_verdicts ip t1 : ∀ ts k w,
  reliable w → counter_reads ip t1 (k `min` 30) w → Forall (in_window t1) ts →
  ∃ w', returns (checks_at ip ts) w (verdict <$> seq k (length ts)) w'.
Proof.
  induction ts as [|t ts IH]; intros k w Hr Hc Hts.
  - exists w. apply returns_ret.
  - apply Forall_cons in Hts as [Ht Hts].
    destruct (check_at_verdict ip t1 t k w) as (w1 & Hrun1 & Hc1 & Hr1); [done..|].
    destruct (IH (S k) w1) as (w' & Hrun); [done..|].
    exists w'. eapply returns_bind; [exact Hrun1|].
    eapply returns_bind; [exact Hrun|]. apply returns_ret.
Qed.

Lemma counter_reads_fresh ip t1 w :
  rate_lookup t1 (rate_limit w) (rate_key ip) = None → counter_reads ip t1 0 w.
Proof.
  intros H t [Ht _]. unfold rate_lookup in *.
  destruct (rate_limit w !! rate_key ip) as [e|]; [|done].
  destruct (Z.ltb_spec t1 (rate_expires e)); [done|].
  by destruct (Z.ltb_spec t (rate_expires e)); [lia|].
Qed.

(** The 31st check of a window is turned away with the reset time 60 whether
    the counter has 50 seconds left or one millisecond: the reset time is
    not the remaining lifetime of C2. *)
Lemma reset_time_is_the_window_length :
  let early := checks_at "203.0.113.7" (replicate 30 0%Z ++ [10000%Z])
                         (quiet_world silent_reply) in
  let late := checks_at "203.0.113.7" (replicate 30 0%Z ++ [59999%Z])
                        (quiet_world silent_reply) in
  early.1.1 = Val (verdict <$> seq 0 31)
  ∧ verdict 30 = mkRateLimitCheck false None (Some 60%Z)
  ∧ remaining_lifetime 10000 (rate_limit early.1.2) (rate_key "203.0.113.7")
    = Some 50000%Z
  ∧ late.1.1 = Val (verdict <$> seq 0 31)
  ∧ remaining_lifetime 59999 (rate_limit late.1.2) (rate_key "203.0.113.7")
    = Some 1%Z
  ∧ resetTime (verdict 30) ≠ Some 50%Z.
Proof. vm_compute. repeat split; done. Qed.

(** C2, amended.  From a store that answers and holds no live counter for
    the identity, 31 checks made inside one window of 60 seconds: each of
    the first 30 is allowed (with 29, 28, ..., 0 requests remaining), the
    31st is rejected, and the rejection carries the window length, the
    constant 60, as its reset time. *)
Theorem thirty_allowed_then_rejected ip t1 (rest : list Z) w :
  reliable w → rate_lookup t1 (rate_limit w) (rate_key ip) = None →
  length rest = 30 → Forall (in_window t1) rest →
  ∃ w', returns (checks_at ip (t1 :: rest)) w
          (((λ j, mkRateLimitCheck true (Some (Int (29 - Z.of_nat j))) None)
              <$> seq 0 30)
           ++ [mkRateLimitCheck false None (Some 60%Z)]) w'.
Proof.
  intros Hr Hfresh Hlen Hin.
  destruct (checks_at_verdicts ip t1 (t1 :: rest) 0 w) as (w' & Hrun).
  - done.
  - by apply counter_reads_fresh.
  - constructor; [|done]. unfold in_window, window. lia.
  - exists w'. simpl in Hrun. rewrite Hlen in Hrun. exact Hrun.
Qed.

Lemma thirty_allowed_then_rejected_witness :
  ∃ w', returns (checks_at "203.0.113.7" (0%Z :: replicate 30 10000%Z))
          (quiet_world silent_reply)
          (((λ j, mkRateLimitCheck true (Some (Int (29 - Z.of_nat j))) None)
              <$> seq 0 30)
           ++ [mkRateLimitCheck false None (Some 60%Z)]) w'.
Proof.
  apply thirty_allowed_then_rejected.
  - intros n. reflexivity.
  - reflexivity.
  - reflexivity.
  - apply Forall_replicate. unfold in_window, window. lia.
Defined.

(** ** Validation *)

Lemma validate_invalid input :
  invalid_input input → valid (validateMessageInput input) = false.
Proof.
  unfold validateMessageInput.
  intros [H|[H|[H|[(t & Ht & Hr)|(n & Hn & Hz & Hr)]]]].
  - by rewrite H.
  - destruct (String.eqb _ _); [done|].
    by destruct (Nat.ltb_spec 2000 (String.length (in_message input))); [|lia].
  - destruct (String.eqb _ _); [done|]. destruct (_ <? _); [done|]. by rewrite H.
  - destruct (String.eqb _ _); [done|]. destruct (_ <? _); [done|].
    destruct (String.eqb _ _); [done|]. rewrite Ht.
    assert (Hne : Qeq_bool t 0 = false).
    { apply not_true_is_false. intros E. apply Qeq_bool_iff in E.
      rewrite E in Hr. destruct Hr as [Hr|Hr]; vm_compute in Hr; discriminate. }
    assert (Hout : negb (Qle_bool 0 t) || negb (Qle_bool t 2) = true).
    { destruct Hr as [Hr|Hr]; apply Qlt_not_le in Hr.
      - destruct (Qle_bool 0 t) eqn:E; [|done]. by apply Qle_bool_iff in E.
      - destruct (Qle_bool t 2) eqn:E; [|by rewrite orb_true_r].
        by apply Qle_bool_iff in E. }
    by rewrite Hne, Hout.
  - assert (Hm : match in_maxTokens input with
                 | Some n => negb (n =? 0)%Z && ((n <? 1)%Z || (4000 <? n)%Z)
                 | None => false
                 end = true).
    { rewrite Hn. destruct (Z.eqb_spec n 0); [done|].
      destruct (Z.ltb_spec n 1); [done|].
      by destruct (Z.ltb_spec 4000 n); [|lia]. }
    rewrite Hm.
    destruct (String.eqb _ _); [done|]. destruct (_ <? _); [done|].
    destruct (String.eqb _ _); [done|].
    destruct (in_temperature input) as [t|]; [|done].
    by destruct (negb (Qeq_bool t 0) && _).
Qed.

Lemma checkRateLimit_total ip w :
  ∃ rl w1 t1, checkRateLimit ip w = (Val rl, w1, t1)
    ∧ chat_db w1 = chat_db w ∧ drawn w1 = drawn w ∧ clock w1 = clock w
    ∧ Forall (λ e, is_rate_op (ev_op e) = true) t1.
Proof.
  rewrite checkRateLimit_cases.
  destruct (kv_fault w (kv_ops w)); [by repeat econstructor|].
  destruct (num_geb _ _); [by repeat econstructor|].
  destruct (kv_fault w (S (kv_ops w))); by repeat econstructor.
Qed.

(** What the resolver does with an input the validation turns down: the
    rate check, then the answer. *)
Lemma sendMessage_invalid input header w :
  valid (validateMessageInput input) = false →
  ∃ r w' t, sendMessage input header w = (Val r, w', t)
    ∧ success r = false ∧ message r = None
    ∧ chat_db w' = chat_db w ∧ drawn w' = drawn w ∧ clock w' = clock w
    ∧ t = trace_of (checkRateLimit (client_ip header)) w
    ∧ Forall (λ e, is_rate_op (ev_op e) = true) t.
Proof.
  intros Hv.
  destruct (checkRateLimit_total (client_ip header) w)
    as (rl & w1 & t1 & Hrl & Hdb & Hdr & Hcl & Ht).
  unfold sendMessage, try_catch. fold (client_ip header).
  unfold trace_of. rewrite (bind_val _ _ _ _ _ _ Hrl), Hrl. simpl.
  destruct (allowed rl); simpl.
  - rewrite Hv. simpl. rewrite app_nil_r. by repeat econstructor.
  - rewrite app_nil_r. by repeat econstructor.
Qed.

Lemma rate_op_is_no_db_op_nor_fetch (t : list Event) :
  Forall (λ e, is_rate_op (ev_op e) = true) t →
  Forall (λ e, is_db_op (ev_op e) = false ∧ is_fetch (ev_op e) = false) t.
Proof. intros H. eapply Forall_impl; [exact H|]. intros [[] ok]; simpl; done. Qed.

(** An empty message is answered with a failure, but only after the rate
    counter of the client was read and incremented: the limiter is
    consulted before the validation, against C4. *)
Lemma invalid_input_reaches_rate_counter :
  let run := sendMessage empty_input (Some "203.0.113.7")
                         (quiet_world silent_reply) in
  invalid_input empty_input
  ∧ run.1.1 = Val (mkSendMessageResponse false None
                     (Some "消息内容不能为空") None)
  ∧ run.2 = [mkEvent (RateGet "rate:203.0.113.7") true;
             mkEvent (RatePut "rate:203.0.113.7" "1" 60) true]
  ∧ rate_limit (quiet_world silent_reply) !! "rate:203.0.113.7" = None
  ∧ rate_limit run.1.2 !! "rate:203.0.113.7" = Some (mkRateEntry "1" 60000).
Proof. split; [by left|]. by vm_compute. Qed.

(** C4, amended.  For every invalid input (empty message, message longer
    than 2000 characters, missing conversationId, temperature outside
    [0, 2], or a maxTokens other than zero outside [1, 4000]), the resolver
    returns a failure without touching the ConversationStore or the
    ModelGateway: no key of the chat store is read or written and no
    upstream call is made.  What it does before is the rate check, whose
    calls are the whole trace. *)
Theorem invalid_input_skips_store_and_gateway input header w :
  invalid_input input →
  ∃ r w' t, sendMessage input header w = (Val r, w', t)
    ∧ success r = false ∧ message r = None
    ∧ chat_db w' = chat_db w
    ∧ Forall (λ e, is_db_op (ev_op e) = false ∧ is_fetch (ev_op e) = false) t
    ∧ t = trace_of (checkRateLimit (client_ip header)) w.
Proof.
  intros Hinv.
  destruct (sendMessage_invalid input header w (validate_invalid _ Hinv))
    as (r & w' & t & Hrun & Hs & Hm & Hdb & _ & _ & Ht & Hrate).
  exists r, w', t. repeat split; try done.
  by apply rate_op_is_no_db_op_nor_fetch.
Qed.

Lemma invalid_input_skips_store_and_gateway_witness :
  ∃ r w' t, sendMessage empty_input (Some "203.0.113.7")
                        (quiet_world silent_reply) = (Val r, w', t)
    ∧ success r = false ∧ message r = None
    ∧ chat_db w' = chat_db (quiet_world silent_reply)
    ∧ Forall (λ e, is_db_op (ev_op e) = false ∧ is_fetch (ev_op e) = false) t
    ∧ t = trace_of (checkRateLimit (client_ip (Some "203.0.113.7")))
                   (quiet_world silent_reply).
Proof. apply invalid_input_skips_store_and_gateway. left. reflexivity. Defined.

(** A model identifier outside the supported set passes the validation and
    is sent upstream as it is, against C7. *)
Lemma unsupported_model_reaches_upstream :
  ("gpt-4" ∉ supported_models)
  ∧ in_model foreign_model_input = Some "gpt-4"
  ∧ validateMessageInput foreign_model_input = mkValidation true None
  ∧ ∃ body, mkEvent (Fetch body) true
              ∈ trace_of (sendMessage foreign_model_input None)
                         (quiet_world reply_with_usage)
            ∧ body_model body = Some "gpt-4".
Proof.
  split; [by apply (bool_decide_unpack _)|]. split; [done|]. split; [done|].
  exists (mkRequestBody (Some "gpt-4") (prompt_messages "hello" [])
                        (Some (7 # 10)%Q) (Some 1000%Z) false).
  split; [|reflexivity]. vm_compute. do 6 right. left.
Qed.

(** [maxTokens = 0] passes the guard [input.maxTokens && ...] and is sent
    upstream. *)
Example zero_maxTokens_passes_validation :
  validateMessageInput zero_tokens_input = mkValidation true None
  ∧ ∃ body, mkEvent (Fetch body) true
              ∈ trace_of (sendMessage zero_tokens_input None)
                         (quiet_world reply_with_usage)
            ∧ body_max_tokens body = Some 0%Z.
Proof.
  split; [done|].
  exists (mkRequestBody (Some "deepseek-chat") (prompt_messages "hello" [])
                        (Some (7 # 10)%Q) (Some 0%Z) false).
  split; [|reflexivity]. vm_compute. do 6 right. left.
Qed.

(** C7, amended.  Every input whose temperature is outside [0, 2], or whose
    maxTokens is other than zero and outside [1, 4000], is rejected by the
    validation, and the resolver answers it with a failure without any call
    to the upstream API. *)
Theorem out_of_range_rejected_before_upstream input :
  temperature_out_of_range input ∨ maxTokens_out_of_range input →
  valid (validateMessageInput input) = false
  ∧ ∀ header w,
      (∃ r, (sendMessage input header w).1.1 = Val r ∧ success r = false)
      ∧ Forall (λ e, is_fetch (ev_op e) = false)
               (trace_of (sendMessage input header) w).
Proof.
  intros Hout.
  assert (Hv : valid (validateMessageInput input) = false).
  { apply validate_invalid. unfold invalid_input. tauto. }
  split; [done|]. intros header w.
  destruct (sendMessage_invalid input header w Hv)
    as (r & w' & t & Hrun & Hs & _ & _ & _ & _ & _ & Hrate).
  unfold trace_of. rewrite Hrun. simpl. split; [by exists r|].
  eapply Forall_impl; [by apply rate_op_is_no_db_op_nor_fetch|]. by intros e [_ ?].
Qed.

Lemma out_of_range_rejected_before_upstream_witness :
  valid (validateMessageInput cold_input) = false
  ∧ ∀ header w,
      (∃ r, (sendMessage cold_input header w).1.1 = Val r ∧ success r = false)
      ∧ Forall (λ e, is_fetch (ev_op e) = false)
               (trace_of (sendMessage cold_input header) w).
Proof.
  apply out_of_range_rejected_before_upstream.
  left. exists (- (1 # 2))%Q. split; [reflexivity|]. left. reflexivity.
Defined.

(** ** A successful send *)

Lemma bind_inv {A B} (m : M A) (k : A → M B) w b w2 t :
  bind m k w = (Val b, w2, t) →
  ∃ a w1 t1 t2, m w = (Val a, w1, t1) ∧ k a w1 = (Val b, w2, t2) ∧ t = t1 ++ t2.
Proof.
  unfold bind. destruct (m w) as [[[a|] w1] t1]; [|done].
  destruct (k a w1) as [[r w2'] t2] eqn:Ek. intros [= -> -> <-].
  by exists a, w1, t1, t2.
Qed.

Lemma env_stable_ret {A} (a : A) : env_stable (ret a).
Proof. done. Qed.

Lemma env_stable_throw {A} : env_stable (@throw A).
Proof. done. Qed.

Lemma env_stable_bind {A B} (m : M A) (k : A → M B) :
  env_stable m → (∀ a, env_stable (k a)) → env_stable (bind m k).
Proof.
  intros Hm Hk w. unfold bind. specialize (Hm w).
  destruct (m w) as [[[a|] w1] t1]; [|done].
  specialize (Hk a w1). destruct (k a w1) as [[r w2] t2]. simpl in *. congruence.
Qed.

Lemma env_stable_try_catch {A} (body handler : M A) :
  env_stable body → env_stable handler → env_stable (try_catch body handler).
Proof.
  intros Hb Hh w. unfold try_catch. specialize (Hb w).
  destruct (body w) as [[[a|] w1] t1]; [done|].
  specialize (Hh w1). destruct (handler w1) as [[r w2] t2]. simpl in *. congruence.
Qed.

Lemma env_stable_kv_call {A} op (f : World → A * World) :
  (∀ w, upstream (f w).2 = upstream w) → env_stable (kv_call op f).
Proof.
  intros Hf w. unfold kv_call. destruct (kv_fault w (kv_ops w)); [done|].
  specialize (Hf (count_op w)). by destruct (f (count_op w)).
Qed.

Lemma env_stable_db_get key : env_stable (db_get key).
Proof. by apply env_stable_kv_call. Qed.

Lemma env_stable_db_put key v : env_stable (db_put key v).
Proof. by apply env_stable_kv_call. Qed.

Lemma env_stable_db_delete key : env_stable (db_delete key).
Proof. by apply env_stable_kv_call. Qed.

Lemma env_stable_as_ids v : env_stable (as_ids v).
Proof. by destruct v. Qed.

Lemma env_stable_saveMessage m : env_stable (saveMessage m).
Proof.
  unfold saveMessage.
  apply env_stable_bind; [apply env_stable_db_put|intros _].
  apply env_stable_bind; [apply env_stable_db_get|intros existing].
  apply env_stable_bind.
  { destruct existing; [apply env_stable_as_ids|apply env_stable_ret]. }
  intros parsed. apply env_stable_bind; [|intros ?; apply env_stable_db_put].
  destruct (_ <? _); [|apply env_stable_ret].
  destruct (parsed ++ [id m]); [apply env_stable_ret|].
  apply env_stable_bind; [apply env_stable_db_delete|intros _; apply env_stable_ret].
Qed.

Lemma env_stable_collect_messages conv ids :
  ∀ acc, env_stable (collect_messages conv ids acc).
Proof.
  induction ids as [|mid ids IH]; intros acc; [apply env_stable_ret|].
  simpl. apply env_stable_bind; [apply env_stable_db_get|].
  intros [[m|l]|]; [apply IH|apply env_stable_throw|apply IH].
Qed.

Lemma env_stable_getConversationMessages conv :
  env_stable (getConversationMessages conv).
Proof.
  unfold getConversationMessages.
  apply env_stable_bind; [apply env_stable_db_get|].
  intros [v|]; [|apply env_stable_ret].
  apply env_stable_bind; [apply env_stable_as_ids|intros ids].
  apply env_stable_bind; [apply env_stable_collect_messages|].
  intros ?. apply env_stable_ret.
Qed.

Lemma env_stable_checkRateLimit ip : env_stable (checkRateLimit ip).
Proof.
  intros w. rewrite checkRateLimit_cases.
  destruct (kv_fault w (kv_ops w)); [done|].
  destruct (num_geb _ _); [done|].
  by destruct (kv_fault w (S (kv_ops w))).
Qed.

Lemma env_stable_generateMessageId : env_stable generateMessageId.
Proof. done. Qed.

Lemma env_stable_now : env_stable now.
Proof. done. Qed.

Lemma env_stable_at {A} (m : M A) w a w' t :
  env_stable m → m w = (Val a, w', t) → upstream w' = upstream w.
Proof. intros H E. specialize (H w). by rewrite E in H. Qed.

Lemma saveMessage_records m w w' t :
  saveMessage m w = (Val tt, w', t) →
  mkEvent (DbPut (msg_key (conversationId m) (id m)) (JMessage m)) true ∈ t.
Proof.
  unfold saveMessage. intros H.
  apply bind_inv in H as ([] & w1 & t1 & t2 & Hput & _ & ->).
  unfold db_put, kv_call in Hput.
  destruct (kv_fault w (kv_ops w)); [done|].
  injection Hput as _ <-. apply elem_of_app. left. left.
Qed.

Lemma callDeepSeekAPI_inv text history model temperature maxTokens w resp w' t :
  callDeepSeekAPI text history model temperature maxTokens w = (Val resp, w', t) →
  let body := mkRequestBody model (prompt_messages text history) temperature
                            maxTokens false in
  ∃ data reply,
    outcome (upstream w body) = HttpOk (Some data)
    ∧ first_choice data = Some reply
    ∧ resp = mkCompletion reply (data_usage data)
    ∧ t = [mkEvent (Fetch body) true].
Proof.
  unfold callDeepSeekAPI, bind, fetch_completion.
  destruct (outcome (upstream w _)) as [|status|[data|]]; simpl; try done.
  destruct (first_choice data) as [reply|] eqn:Echoice; simpl; [|done].
  intros [= <- <- <-]. by exists data, reply.
Qed.

Lemma completion_tokens_or_zero_spec u :
  completion_tokens_or_zero u
  = match u with Some u => completion_tokens u | None => 0%Z end.
Proof.
  destruct u as [u|]; [|done]. simpl.
  by destruct (Z.eqb_spec (completion_tokens u) 0) as [->|].
Qed.

(** The upstream replies without [usage]: the assistant message is stored
    with 0 tokens, not with the estimate from the length of its content,
    against C5. *)
Lemma tokens_without_usage_are_zero :
  let run := sendMessage hello_input (Some "203.0.113.7")
                         (quiet_world reply_without_usage) in
  ∃ m, run.1.1 = Val (mkSendMessageResponse true (Some m) None None)
    ∧ chat_db run.1.2 !! msg_key "conv_abc" (id m) = Some (JMessage m)
    ∧ content m = "hi there"
    ∧ tokens m = 0%Z
    ∧ estimateTokens (content m) = 6%Z.
Proof.
  exists (mkMessage "msg_1" "hi there" ASSISTANT 5 "conv_abc"
                    (Some "deepseek-chat") 0).
  by vm_compute.
Qed.

(** C5, amended.  On a successful [sendMessage] the assistant message that
    is returned was written to the store, carries the model identifier of
    the request, and its token count is the completion-token count of the
    upstream usage when the reply has a usage, and 0 when it has none. *)
Theorem assistant_message_model_and_tokens input header w r w' t :
  sendMessage input header w = (Val r, w', t) → success r = true →
  ∃ m body data reply,
    message r = Some m
    ∧ role m = ASSISTANT
    ∧ conversationId m = in_conversationId input
    ∧ model m = in_model input
    ∧ mkEvent (DbPut (msg_key (in_conversationId input) (id m)) (JMessage m)) true ∈ t
    ∧ mkEvent (Fetch body) true ∈ t
    ∧ outcome (upstream w body) = HttpOk (Some data)
    ∧ first_choice data = Some reply
    ∧ content m = reply
    ∧ tokens m = match data_usage data with
                 | Some u => completion_tokens u
                 | None => 0%Z
                 end.
Proof.
  unfold sendMessage. fold (client_ip header). unfold try_catch.
  match goal with |- context [bind ?m ?k w] =>
    destruct (bind m k w) as [[[r0|] w0] t0] eqn:Hbody end; simpl.
  2: { intros [= <- _ _]. done. }
  intros [= -> -> ->] Hs.
  apply bind_inv in Hbody as (rl & w1 & t1 & t2 & Hrl & Hrest & ->).
  destruct (allowed rl); simpl in Hrest; [|by injection Hrest as <-].
  destruct (valid (validateMessageInput input)); simpl in Hrest;
    [|by injection Hrest as <-].
  apply bind_inv in Hrest as (history & w2 & t3 & t4 & Hhist & Hrest & ->).
  apply bind_inv in Hrest as (uid & w3 & t5 & t6 & Huid & Hrest & ->).
  apply bind_inv in Hrest as (utime & w4 & t7 & t8 & Hutime & Hrest & ->).
  apply bind_inv in Hrest as ([] & w5 & t9 & t10 & Husave & Hrest & ->).
  apply bind_inv in Hrest as (resp & w6 & t11 & t12 & Hcall & Hrest & ->).
  apply bind_inv in Hrest as (aid & w7 & t13 & t14 & Haid & Hrest & ->).
  apply bind_inv in Hrest as (atime & w8 & t15 & t16 & Hatime & Hrest & ->).
  apply bind_inv in Hrest as ([] & w9 & t17 & t18 & Hasave & Hrest & ->).
  injection Hrest as <- <- <-.
  apply callDeepSeekAPI_inv in Hcall as (data & reply & Hout & Hchoice & -> & ->).
  apply saveMessage_records in Hasave. simpl in Hasave.
  assert (Hup : upstream w5 = upstream w).
  { rewrite (env_stable_at _ _ _ _ _ (env_stable_saveMessage _) Husave).
    rewrite (env_stable_at _ _ _ _ _ env_stable_now Hutime).
    rewrite (env_stable_at _ _ _ _ _ env_stable_generateMessageId Huid).
    rewrite (env_stable_at _ _ _ _ _ (env_stable_getConversationMessages _) Hhist).
    apply (env_stable_at _ _ _ _ _ (env_stable_checkRateLimit _) Hrl). }
  rewrite Hup in Hout.
  eexists _, _, data, reply. simpl.
  split; [done|]. split; [done|]. split; [done|]. split; [done|].
  split; [|split; [|split; [exact Hout|split; [done|split; [done|]]]]].
  - rewrite !elem_of_app, elem_of_cons, !elem_of_app.
    do 8 right. left. exact Hasave.
  - rewrite !elem_of_app, elem_of_cons. do 5 right. by left.
  - apply completion_tokens_or_zero_spec.
Qed.

Lemma assistant_message_model_and_tokens_witness :
  ∃ m body data reply,
    message hello_response = Some m
    ∧ role m = ASSISTANT
    ∧ conversationId m = in_conversationId hello_input
    ∧ model m = in_model hello_input
    ∧ mkEvent (DbPut (msg_key (in_conversationId hello_input) (id m))
                     (JMessage m)) true ∈ hello_run.2
    ∧ mkEvent (Fetch body) true ∈ hello_run.2
    ∧ outcome (upstream (quiet_world reply_with_usage) body) = HttpOk (Some data)
    ∧ first_choice data = Some reply
    ∧ content m = reply
    ∧ tokens m = match data_usage data with
                 | Some u => completion_tokens u
                 | None => 0%Z
                 end.
Proof.
  apply (assistant_message_model_and_tokens hello_input (Some "203.0.113.7")
           (quiet_world reply_with_usage) hello_response hello_run.1.2 hello_run.2).
  - vm_compute. reflexivity.
  - reflexivity.
Defined.

(** The end-to-end run of the specification: the answer carries 3 tokens
    and a total usage of 8, and the conversation then reads as the user
    message followed by the assistant message. *)
Example hello_end_to_end :
  hello_run.1.1 = Val hello_response
  ∧ (getConversationMessages "conv_abc" hello_run.1.2).1.1
    = Val [mkMessage "msg_0" "hello" USER 0 "conv_abc" None 4;
           mkMessage "msg_1" "hi there" ASSISTANT 5 "conv_abc"
                     (Some "deepseek-chat") 3].
Proof. split; reflexivity. Qed.


(** * Further properties *)

(** ** Token estimate and validation *)

(** X1.  The estimate is the length times two thirds, rounded up: zero for
    the empty text only, and never more than the length. *)
Theorem estimateTokens_bounds text :
  (2 * Z.of_nat (String.length text) ≤ 3 * estimateTokens text
   ≤ 2 * Z.of_nat (String.length text) + 2)%Z
  ∧ (estimateTokens text ≤ Z.of_nat (String.length text))%Z
  ∧ (estimateTokens text = 0%Z ↔ text = EmptyString).
Proof.
  unfold estimateTokens.
  set (n := Z.of_nat (String.length text)).
  assert (Hn : (0 ≤ n)%Z) by lia.
  pose proof (Z.div_mod (2 * n + 2) 3 ltac:(lia)) as Hd.
  pose proof (Z.mod_pos_bound (2 * n + 2) 3 ltac:(lia)) as Hm.
  split; [lia|]. split; [lia|].
  split.
  - intros H0. destruct text; [done|]. subst n. simpl String.length in *. lia.
  - intros ->. done.
Qed.

(** X2.  An input inside every range (non-empty message of at most 2000
    characters, a conversation id, temperature in [0, 2] or null, maxTokens
    in [1, 4000] or null) passes the validation, with no error text. *)
Theorem in_range_input_is_valid input :
  in_range_input input → validateMessageInput input = mkValidation true None.
Proof.
  intros (Hm & Hlen & Hc & Ht & Hn). unfold validateMessageInput.
  destruct (String.eqb_spec (in_message input) EmptyString) as [|_]; [done|].
  destruct (Nat.ltb_spec 2000 (String.length (in_message input))) as [|_]; [lia|].
  destruct (String.eqb_spec (in_conversationId input) EmptyString) as [|_]; [done|].
  assert (Htemp : match in_temperature input with
                  | Some t => negb (Qeq_bool t 0)
                              && (negb (Qle_bool 0 t) || negb (Qle_bool t 2))
                  | None => false
                  end = false).
  { destruct (in_temperature input) as [t|]; [|done].
    destruct (Ht t eq_refl) as [H0 H2].
    apply Qle_bool_iff in H0, H2. rewrite H0, H2. simpl. apply andb_false_r. }
  rewrite Htemp.
  destruct (in_maxTokens input) as [n|]; [|done].
  specialize (Hn n eq_refl).
  destruct (Z.eqb_spec n 0) as [|_]; [lia|].
  destruct (Z.ltb_spec n 1) as [|_]; [lia|].
  by destruct (Z.ltb_spec 4000 n) as [|_]; [lia|].
Qed.

Lemma in_range_input_is_valid_witness :
  validateMessageInput hello_input = mkValidation true None.
Proof.
  apply in_range_input_is_valid. unfold in_range_input, hello_input. simpl.
  split; [done|]. split; [lia|]. split; [done|]. split.
  - intros t [= <-]. split; discriminate.
  - intros n [= <-]. lia.
Defined.

(** ** The rate limiter, further *)

Lemma checkRateLimit_reliable ip w :
  reliable w →
  let key := rate_key ip in
  let count := count_of (rate_lookup (clock w) (rate_limit w) key) in
  checkRateLimit ip w =
  if num_geb count (Int limit) then
    (Val (mkRateLimitCheck false None (Some window)), count_op w,
     [mkEvent (RateGet key) true])
  else
    (Val (mkRateLimitCheck true
            (Some (num_sub (num_sub (Int limit) count) (Int 1))) None),
     set_rate_limit
       (<[key := mkRateEntry (num_toString (num_add count (Int 1)))
                             (clock w + 1000 * window)]> (rate_limit w))
       (count_op (count_op w)),
     [mkEvent (RateGet key) true;
      mkEvent (RatePut key (num_toString (num_add count (Int 1))) window) true]).
Proof. intros Hr. rewrite checkRateLimit_cases. simpl. by rewrite !Hr. Qed.

(** X3.  A check that finds the counter at the limit or above is turned
    away without writing: the store is left as it was, so a rejection does
    not push the expiry of the counter further. *)
Theorem rejected_check_writes_nothing ip t (k : Z) w :
  reliable w →
  count_of (rate_lookup t (rate_limit w) (rate_key ip)) = Int k →
  (30 ≤ k)%Z →
  ∃ w', check_at ip t w
        = (Val (mkRateLimitCheck false None (Some 60%Z)), w',
           [mkEvent (RateGet (rate_key ip)) true])
    ∧ rate_limit w' = rate_limit w ∧ chat_db w' = chat_db w.
Proof.
  intros Hr Hc Hk. unfold check_at.
  rewrite checkRateLimit_reliable by done. simpl. rewrite Hc. simpl.
  unfold limit. destruct (Z.leb_spec 30 k) as [_|?]; [|lia]. by eexists.
Qed.

Lemma rejected_check_writes_nothing_witness :
  ∃ w', check_at "203.0.113.7" 10000
          (checks_at "203.0.113.7" (replicate 30 0%Z)
                     (quiet_world silent_reply)).1.2
        = (Val (mkRateLimitCheck false None (Some 60%Z)), w',
           [mkEvent (RateGet (rate_key "203.0.113.7")) true])
    ∧ rate_limit w'
      = rate_limit (checks_at "203.0.113.7" (replicate 30 0%Z)
                              (quiet_world silent_reply)).1.2
    ∧ chat_db w'
      = chat_db (checks_at "203.0.113.7" (replicate 30 0%Z)
                           (quiet_world silent_reply)).1.2.
Proof.
  apply (rejected_check_writes_nothing _ _ 30).
  - intros n. reflexivity.
  - vm_compute. reflexivity.
  - lia.
Defined.

Lemma check_at_fresh ip t w :
  reliable w → rate_lookup t (rate_limit w) (rate_key ip) = None →
  ∃ w', check_at ip t w
        = (Val (mkRateLimitCheck true (Some (Int 29)) None), w',
           [mkEvent (RateGet (rate_key ip)) true;
            mkEvent (RatePut (rate_key ip) "1" 60) true])
    ∧ rate_limit w' !! rate_key ip = Some (mkRateEntry "1" (t + 60000))
    ∧ chat_db w' = chat_db w ∧ reliable w'.
Proof.
  intros Hr Hnone. unfold check_at.
  rewrite checkRateLimit_reliable by done. simpl. rewrite Hnone. simpl.
  eexists. split; [reflexivity|]. split; [|done].
  simpl. by rewrite lookup_insert_eq.
Qed.

(** X4.  Once the counter has expired (or when there is none), the next
    check is allowed with 29 requests remaining and starts a new count at 1
    that expires 60 seconds later. *)
Theorem expired_counter_allows_again ip t w :
  reliable w → rate_lookup t (rate_limit w) (rate_key ip) = None →
  ∃ w', check_at ip t w
        = (Val (mkRateLimitCheck true (Some (Int 29)) None), w',
           [mkEvent (RateGet (rate_key ip)) true;
            mkEvent (RatePut (rate_key ip) "1" 60) true])
    ∧ rate_limit w' !! rate_key ip = Some (mkRateEntry "1" (t + 60000))
    ∧ chat_db w' = chat_db w.
Proof.
  intros Hr Hnone.
  destruct (check_at_fresh ip t w Hr Hnone) as (w' & Hrun & Hw & Hdb & _).
  by exists w'.
Qed.

Lemma expired_counter_allows_again_witness :
  ∃ w', check_at "203.0.113.7" 60000
          (checks_at "203.0.113.7" (replicate 31 0%Z)
                     (quiet_world silent_reply)).1.2
        = (Val (mkRateLimitCheck true (Some (Int 29)) None), w',
           [mkEvent (RateGet (rate_key "203.0.113.7")) true;
            mkEvent (RatePut (rate_key "203.0.113.7") "1" 60) true])
    ∧ rate_limit w' !! rate_key "203.0.113.7"
      = Some (mkRateEntry "1" (60000 + 60000))
    ∧ chat_db w'
      = chat_db (checks_at "203.0.113.7" (replicate 31 0%Z)
                           (quiet_world silent_reply)).1.2.
Proof.
  apply expired_counter_allows_again.
  - intros n. reflexivity.
  - vm_compute. reflexivity.
Defined.

Lemma check_at_paced ip tl t k w :
  reliable w → counter_written ip k tl w → 1 ≤ k ≤ 30 →
  (tl ≤ t < tl + 1000 * window)%Z →
  ∃ w', returns (check_at ip t) w (verdict k) w'
        ∧ (k < 30 → counter_written ip (S k) t w') ∧ reliable w'.
Proof.
  intros Hr Hw Hk Ht. unfold check_at, returns, counter_written in *.
  rewrite checkRateLimit_reliable by done. simpl.
  unfold rate_lookup. rewrite Hw. cbn [rate_expires rate_value].
  destruct (Z.ltb_spec t (tl + 1000 * window)) as [_|?]; [|lia].
  rewrite count_of_toString by lia. unfold verdict, limit. simpl.
  destruct (Nat.ltb_spec k 30) as [Hlt|Hge].
  - destruct (Z.leb_spec 30 (Z.of_nat k)) as [?|_]; [lia|].
    replace (30 - Z.of_nat k - 1)%Z with (29 - Z.of_nat k)%Z by lia.
    eexists. split; [by eexists|]. split; [|done].
    intros _. simpl. rewrite lookup_insert_eq.
    by replace (Z.of_nat k + 1)%Z with (Z.of_nat (S k)) by lia.
  - destruct (Z.leb_spec 30 (Z.of_nat k)) as [_|?]; [|lia].
    eexists. split; [by eexists|]. split; [lia|done].
Qed.

Lemma checks_at_paced ip : ∀ ts tl k w,
  reliable w → counter_written ip k tl w → 1 ≤ k ≤ 30 →
  k + length ts ≤ 31 → paced tl ts →
  ∃ w', returns (checks_at ip ts) w (verdict <$> seq k (length ts)) w'.
Proof.
  induction ts as [|t ts IH]; intros tl k w Hr Hw Hk Hlen Hp.
  - exists w. apply returns_ret.
  - destruct Hp as [Ht Hp].
    destruct (check_at_paced ip tl t k w) as (w1 & Hrun1 & Hw1 & Hr1); [done..|].
    destruct (decide (k < 30)) as [Hlt|Hge].
    + destruct (IH t (S k) w1) as (w' & Hrun); [done|by apply Hw1|lia|simpl in Hlen; lia|done|].
      exists w'. eapply returns_bind; [exact Hrun1|].
      eapply returns_bind; [exact Hrun|]. apply returns_ret.
    + destruct ts as [|t' ts]; [|simpl in Hlen; lia].
      exists w1. eapply returns_bind; [exact Hrun1|].
      eapply returns_bind; [apply returns_ret|]. apply returns_ret.
Qed.

(** X5.  Every allowed check renews the 60 seconds of the counter, so the
    count is not per minute but per run of requests less than 60 seconds
    apart: of 31 checks each made less than 60 seconds after the one before,
    however long they take together, the first 30 are allowed and the 31st
    is rejected. *)
Theorem paced_requests_hit_the_limit ip t1 (rest : list Z) w :
  reliable w → rate_lookup t1 (rate_limit w) (rate_key ip) = None →
  length rest = 30 → paced t1 rest →
  ∃ w', returns (checks_at ip (t1 :: rest)) w
          (((λ j, mkRateLimitCheck true (Some (Int (29 - Z.of_nat j))) None)
              <$> seq 0 30)
           ++ [mkRateLimitCheck false None (Some 60%Z)]) w'.
Proof.
  intros Hr Hfresh Hlen Hp.
  destruct (check_at_fresh ip t1 w Hr Hfresh) as (w1 & Hrun1 & Hw1 & _ & Hr1).
  destruct (checks_at_paced ip rest t1 1 w1) as (w' & Hrun); [done|done|lia|lia|done|].
  exists w'. rewrite Hlen in Hrun.
  eapply returns_bind; [eexists; exact Hrun1|].
  eapply returns_bind; [exact Hrun|]. apply returns_ret.
Qed.

Lemma paced_requests_hit_the_limit_witness :
  ∃ w', returns (checks_at "203.0.113.7" (0%Z :: every_59_seconds))
          (quiet_world silent_reply)
          (((λ j, mkRateLimitCheck true (Some (Int (29 - Z.of_nat j))) None)
              <$> seq 0 30)
           ++ [mkRateLimitCheck false None (Some 60%Z)]) w'.
Proof.
  apply paced_requests_hit_the_limit.
  - intros n. reflexivity.
  - reflexivity.
  - reflexivity.
  - unfold every_59_seconds, window. simpl. repeat split; lia.
Defined.

Example last_paced_request_is_half_an_hour_in :
  last every_59_seconds = Some 1770000%Z.
Proof. reflexivity. Qed.

(** ** The gateway, further *)


(** ** The health query *)


(** ** What an operation leaves alone *)

Section Keeps.
Variable R : World → World → Prop.
Hypothesis R_refl : ∀ w, R w w.
Hypothesis R_trans : ∀ w1 w2 w3, R w1 w2 → R w2 w3 → R w1 w3.

Lemma keeps_ret {A} (a : A) : keeps R (ret a).
Proof. intros w. apply R_refl. Qed.

Lemma keeps_throw {A} : keeps R (@throw A).
Proof. intros w. apply R_refl. Qed.

Lemma keeps_bind {A B} (m : M A) (k : A → M B) :
  keeps R m → (∀ a, keeps R (k a)) → keeps R (bind m k).
Proof.
  intros Hm Hk w. unfold bind. specialize (Hm w).
  destruct (m w) as [[[a|] w1] t1]; [|done].
  specialize (Hk a w1). destruct (k a w1) as [[r w2] t2]. simpl in *. eauto.
Qed.


Lemma keeps_kv_call {A} op (f : World → A * World) :
  (∀ w, R w (count_op w)) → (∀ w, R w (f w).2) → keeps R (kv_call op f).
Proof.
  intros Hc Hf w. unfold kv_call. destruct (kv_fault w (kv_ops w)); [apply Hc|].
  specialize (Hf (count_op w)). destruct (f (count_op w)). simpl in *. eauto.
Qed.

Lemma keeps_as_ids v : keeps R (as_ids v).
Proof. destruct v; [apply keeps_throw|apply keeps_ret]. Qed.

Lemma keeps_collect_messages conv ids :
  (∀ key, keeps R (db_get key)) → ∀ acc, keeps R (collect_messages conv ids acc).
Proof.
  intros Hget. induction ids as [|mid ids IH]; intros acc; [apply keeps_ret|].
  simpl. apply keeps_bind; [apply Hget|].
  intros [[m|l]|]; [apply IH|apply keeps_throw|apply IH].
Qed.

Lemma keeps_getConversationMessages conv :
  (∀ key, keeps R (db_get key)) → keeps R (getConversationMessages conv).
Proof.
  intros Hget. unfold getConversationMessages.
  apply keeps_bind; [apply Hget|].
  intros [v|]; [|apply keeps_ret].
  apply keeps_bind; [apply keeps_as_ids|intros ids].
  apply keeps_bind; [by apply keeps_collect_messages|].
  intros ?. apply keeps_ret.
Qed.

Lemma keeps_saveMessage m :
  (∀ key, keeps R (db_get key)) → (∀ key v, keeps R (db_put key v)) →
  (∀ key, keeps R (db_delete key)) → keeps R (saveMessage m).
Proof.
  intros Hget Hput Hdel. unfold saveMessage.
  apply keeps_bind; [apply Hput|intros _].
  apply keeps_bind; [apply Hget|intros existing].
  apply keeps_bind.
  { destruct existing; [apply keeps_as_ids|apply keeps_ret]. }
  intros parsed. apply keeps_bind; [|intros ?; apply Hput].
  destruct (_ <? _); [|apply keeps_ret].
  destruct (parsed ++ [id m]); [apply keeps_ret|].
  apply keeps_bind; [apply Hdel|intros _; apply keeps_ret].
Qed.
End Keeps.

Lemma db_step_refl w : db_step w w.
Proof. done. Qed.

Lemma db_step_trans w1 w2 w3 : db_step w1 w2 → db_step w2 w3 → db_step w1 w3.
Proof. unfold db_step. intros (?&?&?&?&?&?) (?&?&?&?&?&?). repeat split; congruence. Qed.

Lemma db_step_db_get key : keeps db_step (db_get key).
Proof. by apply (keeps_kv_call db_step db_step_refl db_step_trans). Qed.

Lemma db_step_db_put key v : keeps db_step (db_put key v).
Proof. by apply (keeps_kv_call db_step db_step_refl db_step_trans). Qed.

Lemma db_step_db_delete key : keeps db_step (db_delete key).
Proof. by apply (keeps_kv_call db_step db_step_refl db_step_trans). Qed.

Lemma db_step_getConversationMessages conv :
  keeps db_step (getConversationMessages conv).
Proof.
  apply (keeps_getConversationMessages db_step db_step_refl db_step_trans).
  apply db_step_db_get.
Qed.

Lemma db_step_saveMessage m : keeps db_step (saveMessage m).
Proof.
  apply (keeps_saveMessage db_step db_step_refl db_step_trans).
  - apply db_step_db_get.
  - apply db_step_db_put.
  - apply db_step_db_delete.
Qed.

Lemma keeps_at {A} R (m : M A) w r w' t :
  keeps R m → m w = (r, w', t) → R w w'.
Proof. intros H E. specialize (H w). by rewrite E in H. Qed.

Lemma same_chat_db_refl w : same_chat_db w w.
Proof. done. Qed.

Lemma same_chat_db_trans w1 w2 w3 :
  same_chat_db w1 w2 → same_chat_db w2 w3 → same_chat_db w1 w3.
Proof. unfold same_chat_db. congruence. Qed.

Lemma same_chat_db_getConversationMessages conv :
  keeps same_chat_db (getConversationMessages conv).
Proof.
  apply (keeps_getConversationMessages same_chat_db same_chat_db_refl
           same_chat_db_trans).
  intros key. by apply (keeps_kv_call same_chat_db same_chat_db_refl same_chat_db_trans).
Qed.

(** ** The conversation query *)

Lemma try_catch_val {A} (body handler : M A) w a w' t :
  body w = (Val a, w', t) → try_catch body handler w = (Val a, w', t).
Proof. intros E. unfold try_catch. by rewrite E. Qed.

Lemma Sorted_timestamp_head_last (l : list Message) a b :
  Sorted timestamp_le l → head l = Some a → last l = Some b →
  (timestamp a ≤ timestamp b)%Z.
Proof.
  intros Hs. apply Sorted_StronglySorted in Hs.
  2: { intros x y z. unfold timestamp_le. lia. }
  destruct l as [|x l]; [done|]. intros [= ->] Hl.
  apply StronglySorted_inv in Hs as [_ Hall].
  destruct l as [|y l]; [by injection Hl as ->|].
  rewrite last_cons_cons in Hl.
  rewrite Forall_forall in Hall. apply (Hall b).
  by apply last_Some_elem_of.
Qed.

(** X8.  For a conversation built by appends, the conversation query
    returns the retained messages (at most 100), their number, the timestamp
    of the oldest retained message as [createdAt] and of the newest as
    [updatedAt]; for a conversation without messages, also one the store has
    never seen, it returns an empty conversation stamped with the current
    time, not null. *)
Theorem conversation_of_log cid (ms : list Message) w :
  reliable w → log_inv cid ms (chat_db w) → Sorted timestamp_le ms →
  ∃ c w', returns (conversation cid) w (Some c) w'
    ∧ conv_id c = cid
    ∧ conv_messages c = slice_last 100 ms
    ∧ messageCount c = length ms `min` 100
    ∧ (ms = [] → createdAt c = clock w ∧ updatedAt c = clock w)
    ∧ (∀ m, head (slice_last 100 ms) = Some m → createdAt c = timestamp m)
    ∧ (∀ m, last ms = Some m → updatedAt c = timestamp m)
    ∧ (createdAt c ≤ updatedAt c)%Z
    ∧ chat_db w' = chat_db w.
Proof.
  intros Hr Hinv Hs.
  destruct (log_inv_read cid ms w Hr Hinv Hs) as (w' & [t Hrun] & Hd & Hr').
  assert (Hclock : clock w' = clock w).
  { by destruct (keeps_at _ _ _ _ _ _ (db_step_getConversationMessages cid) Hrun)
      as (_ & ? & _). }
  assert (Hlast : last (slice_last 100 ms) = last ms).
  { unfold slice_last. destruct (decide (length ms = 0)) as [H0|Hn].
    - by destruct ms.
    - destruct (last ms) as [z|] eqn:El.
      + apply last_Some in El as [l' ->].
        rewrite length_app in *. simpl in *.
        rewrite drop_app_le by lia. by rewrite last_snoc.
      + apply last_None in El. by subst ms. }
  eexists _, w'. split.
  { eexists. unfold conversation. apply try_catch_val.
    rewrite (bind_val _ _ _ _ _ _ Hrun). simpl. reflexivity. }
  simpl. rewrite Hclock, Hlast, length_slice_last.
  split; [done|]. split; [done|]. split; [done|].
  split; [by intros ->|]. split; [by intros m ->|]. split; [by intros m ->|].
  split; [|done].
  destruct (head (slice_last 100 ms)) as [a|] eqn:Eh.
  - destruct (last ms) as [b|] eqn:El.
    + eapply Sorted_timestamp_head_last; [|exact Eh|exact Hlast].
      by apply Sorted_drop.
    + apply last_None in El. subst ms. done.
  - apply head_None in Eh. destruct (last ms) as [b|] eqn:El; [|lia].
    rewrite Eh in Hlast. done.
Qed.

Lemma three_message_world_log :
  reliable three_message_world
  ∧ log_inv "c" (numbered_messages "c" 3) (chat_db three_message_world).
Proof.
  destruct (save_all_returns "c" (numbered_messages "c" 3) []
              (quiet_world silent_reply))
    as (w' & [t Hrun] & Hinv & Hr).
  - intros n. reflexivity.
  - apply log_inv_nil. reflexivity.
  - vm_compute. repeat constructor.
  - refine (bool_decide_unpack _ _). vm_compute. reflexivity.
  - unfold three_message_world. rewrite Hrun. by split.
Qed.

Lemma conversation_of_log_witness :
  ∃ c w', returns (conversation "c") three_message_world (Some c) w'
    ∧ conv_id c = "c"
    ∧ conv_messages c = slice_last 100 (numbered_messages "c" 3)
    ∧ messageCount c = length (numbered_messages "c" 3) `min` 100
    ∧ (numbered_messages "c" 3 = [] →
       createdAt c = clock three_message_world
       ∧ updatedAt c = clock three_message_world)
    ∧ (∀ m, head (slice_last 100 (numbered_messages "c" 3)) = Some m →
            createdAt c = timestamp m)
    ∧ (∀ m, last (numbered_messages "c" 3) = Some m → updatedAt c = timestamp m)
    ∧ (createdAt c ≤ updatedAt c)%Z
    ∧ chat_db w' = chat_db three_message_world.
Proof.
  apply conversation_of_log.
  - apply three_message_world_log.
  - apply three_message_world_log.
  - apply numbered_messages_sorted.
Defined.

(** The same query run: three messages, created at the timestamp of the
    first, updated at the timestamp of the last. *)
Example conversation_of_three_messages :
  (conversation "c" three_message_world).1.1
  = Val (Some (mkConversation "c" (numbered_messages "c" 3) 0 2 3)).
Proof. vm_compute. reflexivity. Qed.

(** The conversation nobody has written to: empty, stamped with the clock. *)
Example conversation_of_nobody :
  (conversation "nobody" (quiet_world silent_reply)).1.1
  = Val (Some (mkConversation "nobody" [] 0 0 0)).
Proof. vm_compute. reflexivity. Qed.

(** X9.  The conversation query never throws and never writes: whatever the
    store holds and whichever calls fail, it returns a conversation or null
    and leaves both stores as they were; it returns null when the store does
    not answer the first read. *)
Theorem conversation_never_throws_nor_writes cid w :
  ∃ r w' t, conversation cid w = (Val r, w', t)
    ∧ chat_db w' = chat_db w ∧ rate_limit w' = rate_limit w
    ∧ (kv_fault w (kv_ops w) = true → r = None).
Proof.
  unfold conversation, try_catch.
  match goal with |- context [bind ?m ?k w] =>
    destruct (bind m k w) as [[[r0|] w0] t0] eqn:Hbody end.
  - apply bind_inv in Hbody as (msgs & w1 & t1 & t2 & Hread & Hrest & ->).
    unfold bind, now, ret in Hrest. injection Hrest as <- <- <-.
    destruct (keeps_at _ _ _ _ _ _ (db_step_getConversationMessages cid) Hread)
      as (Hrl & _).
    pose proof (keeps_at _ _ _ _ _ _ (same_chat_db_getConversationMessages cid) Hread).
    eexists _, _, _. split; [done|]. split; [done|]. split; [done|].
    intros Hf. unfold getConversationMessages, bind, db_get, kv_call in Hread.
    by rewrite Hf in Hread.
  - unfold bind in Hbody.
    destruct (getConversationMessages cid w) as [[[msgs|] w1] t1] eqn:Hread.
    + unfold now, ret in Hbody. done.
    + injection Hbody as <- <-.
      destruct (keeps_at _ _ _ _ _ _ (db_step_getConversationMessages cid) Hread)
        as (Hrl & _).
      pose proof (keeps_at _ _ _ _ _ _ (same_chat_db_getConversationMessages cid) Hread).
      simpl. eexists _, _, _. by repeat split.
Qed.

(** ** Clearing under failures *)

Lemma delete_all_conv_key conv ids d conv' :
  delete_all conv ids d !! conv_key conv' = d !! conv_key conv'.
Proof.
  revert d. induction ids as [|mid ids IH]; intros d; [done|].
  simpl. rewrite IH. apply lookup_delete_ne, msg_key_conv_key.
Qed.

(** The loop of [clear] either deletes every listed record or stops at a
    failed delete; in both cases it has touched record keys only. *)
Lemma delete_records_any conv ids : ∀ w,
  ∃ r w' t, delete_records conv ids w = (r, w', t)
    ∧ (r = Val tt → chat_db w' = delete_all conv ids (chat_db w))
    ∧ (∀ conv', chat_db w' !! conv_key conv' = chat_db w !! conv_key conv').
Proof.
  induction ids as [|mid ids IH]; intros w.
  - eexists _, _, _. by split.
  - simpl. unfold bind, db_delete, kv_call.
    destruct (kv_fault w (kv_ops w)).
    + eexists _, _, _. by split.
    + simpl.
      destruct (IH (set_chat_db (delete (msg_key conv mid) (chat_db w)) (count_op w)))
        as (r & w' & t & Hrun & Hval & Hkey).
      rewrite Hrun. eexists _, _, _. split; [done|]. split.
      * intros ->. by rewrite Hval.
      * intros conv'. rewrite Hkey. simpl.
        apply lookup_delete_ne, msg_key_conv_key.
Qed.

Lemma db_get_any key w :
  db_get key w =
  if kv_fault w (kv_ops w) then (Exn, count_op w, [mkEvent (DbGet key) false])
  else (Val (chat_db w !! key), count_op w, [mkEvent (DbGet key) true]).
Proof. unfold db_get, kv_call. by destruct (kv_fault w (kv_ops w)). Qed.

Lemma db_delete_any key w :
  db_delete key w =
  if kv_fault w (kv_ops w) then (Exn, count_op w, [mkEvent (DbDelete key) false])
  else (Val tt, set_chat_db (delete key (chat_db w)) (count_op w),
        [mkEvent (DbDelete key) true]).
Proof. unfold db_delete, kv_call. by destruct (kv_fault w (kv_ops w)). Qed.

Lemma clearConversationMessages_any conv w :
  ∃ r w' t, clearConversationMessages conv w = (r, w', t)
    ∧ (r = Val tt →
       chat_db w' !! conv_key conv = None
       ∧ ∀ mid, mid ∈ ids_at (chat_db w) conv →
                chat_db w' !! msg_key conv mid = None)
    ∧ (r = Exn → chat_db w' !! conv_key conv = chat_db w !! conv_key conv).
Proof.
  unfold clearConversationMessages, ids_at.
  pose proof (db_get_any (conv_key conv) w) as Hget.
  destruct (kv_fault w (kv_ops w)).
  { rewrite (bind_exn _ _ _ _ _ Hget). eexists _, _, _. by split. }
  rewrite (bind_val _ _ _ _ _ _ Hget).
  destruct (chat_db w !! conv_key conv) as [[m|ids]|] eqn:El.
  - eexists _, _, _. split; [done|]. split; [done|]. intros _. by simpl.
  - erewrite (bind_val (as_ids (JIds ids))) by done.
    destruct (delete_records_any conv ids (count_op w))
      as (r & w1 & t1 & Hrun & Hval & Hkey).
    destruct r as [[]|].
    + rewrite (bind_val _ _ _ _ _ _ Hrun).
      rewrite db_delete_any. destruct (kv_fault w1 (kv_ops w1)); simpl.
      * eexists _, _, _. split; [done|]. split; [done|].
        intros _. simpl. by rewrite Hkey.
      * eexists _, _, _. split; [done|]. split; [|done].
        intros _. simpl. split; [apply lookup_delete_eq|].
        intros mid Hin.
        rewrite lookup_delete_ne by (intros E; symmetry in E; by apply msg_key_conv_key in E).
        rewrite (Hval eq_refl). by apply delete_all_listed.
    + rewrite (bind_exn _ _ _ _ _ Hrun). simpl.
      eexists _, _, _. split; [done|]. split; [done|].
      intros _. by rewrite Hkey.
  - eexists _, _, _. split; [done|]. split; [|done].
    intros _. simpl. split; [done|]. intros mid Hin. by apply elem_of_nil in Hin.
Qed.

(** X10.  The clear mutation never throws.  When it reports success the id
    list of the conversation is gone together with every record it named;
    when it reports failure the id list is still exactly what it was, since
    the list is deleted last, so the clearing can be tried again. *)
Theorem clearConversation_all_or_list_kept conv w :
  ∃ b w' t, clearConversation conv w = (Val b, w', t)
    ∧ (b = true →
       chat_db w' !! conv_key conv = None
       ∧ ∀ mid, mid ∈ ids_at (chat_db w) conv →
                chat_db w' !! msg_key conv mid = None)
    ∧ (b = false → chat_db w' !! conv_key conv = chat_db w !! conv_key conv).
Proof.
  destruct (clearConversationMessages_any conv w) as (r & w1 & t1 & Hrun & Hok & Hexn).
  unfold clearConversation, try_catch. destruct r as [[]|].
  - rewrite (bind_val _ _ _ _ _ _ Hrun). simpl.
    eexists _, _, _. split; [done|]. split; [|done]. intros _. by apply Hok.
  - rewrite (bind_exn _ _ _ _ _ Hrun). simpl.
    eexists _, _, _. split; [done|]. split; [done|]. intros _. by apply Hexn.
Qed.

(** ** Conversations do not interfere *)

Lemma conv_key_inj conv conv' : conv_key conv = conv_key conv' → conv = conv'.
Proof. unfold conv_key. apply append_inj_r. Qed.

Lemma colon_free_cons c s : colon_free (String c s) ↔ c ≠ ":"%char ∧ colon_free s.
Proof.
  unfold colon_free. simpl. split.
  - intros H. split; [apply H; left|]. intros x Hx. apply H. by right.
  - intros [Hc Hs] x Hx. apply elem_of_cons in Hx as [->|Hx]; auto.
Qed.

Lemma colon_split c1 c2 i1 i2 :
  colon_free c1 → colon_free c2 →
  c1 +:+ ":" +:+ i1 = c2 +:+ ":" +:+ i2 → c1 = c2 ∧ i1 = i2.
Proof.
  revert c2. induction c1 as [|a c1 IH]; intros [|b c2] H1 H2; simpl.
  - by intros [=].
  - intros [= <- _]. apply colon_free_cons in H2 as [? _]. done.
  - intros [= -> _]. apply colon_free_cons in H1 as [? _]. done.
  - intros [= -> E]. apply colon_free_cons in H1 as [_ H1].
    apply colon_free_cons in H2 as [_ H2].
    destruct (IH c2 H1 H2 E) as [-> ->]. done.
Qed.

(** Record keys of conversations whose ids have no colon never collide. *)
Lemma msg_key_inj_conv c1 c2 i1 i2 :
  colon_free c1 → colon_free c2 →
  msg_key c1 i1 = msg_key c2 i2 → c1 = c2 ∧ i1 = i2.
Proof.
  intros H1 H2 E. unfold msg_key in E. apply append_inj_r in E.
  by apply colon_split.
Qed.

Lemma others_untouched_refl conv w : others_untouched conv w w.
Proof. by intros key _ _. Qed.

Lemma others_untouched_trans conv w1 w2 w3 :
  others_untouched conv w1 w2 → others_untouched conv w2 w3 →
  others_untouched conv w1 w3.
Proof. intros H1 H2 key Hc Hm. by rewrite H2, H1. Qed.

Lemma others_untouched_db_get conv key : keeps (others_untouched conv) (db_get key).
Proof.
  by apply (keeps_kv_call _ (others_untouched_refl conv) (others_untouched_trans conv)).
Qed.

Lemma others_untouched_db_put conv v :
  keeps (others_untouched conv) (db_put (conv_key conv) v).
Proof.
  apply (keeps_kv_call _ (others_untouched_refl conv) (others_untouched_trans conv));
    [done|].
  intros w key Hc Hm. simpl. by apply lookup_insert_ne.
Qed.

Lemma others_untouched_db_put_msg conv mid v :
  keeps (others_untouched conv) (db_put (msg_key conv mid) v).
Proof.
  apply (keeps_kv_call _ (others_untouched_refl conv) (others_untouched_trans conv));
    [done|].
  intros w key Hc Hm. simpl. apply lookup_insert_ne, not_eq_sym, Hm.
Qed.


Lemma others_untouched_db_delete_msg conv mid :
  keeps (others_untouched conv) (db_delete (msg_key conv mid)).
Proof.
  apply (keeps_kv_call _ (others_untouched_refl conv) (others_untouched_trans conv));
    [done|].
  intros w key Hc Hm. simpl. apply lookup_delete_ne, not_eq_sym, Hm.
Qed.

Lemma others_untouched_saveMessage m :
  keeps (others_untouched (conversationId m)) (saveMessage m).
Proof.
  set (conv := conversationId m).
  pose proof (others_untouched_refl conv) as Hrefl.
  pose proof (others_untouched_trans conv) as Htrans.
  unfold saveMessage. fold conv.
  apply (keeps_bind _ Htrans); [apply others_untouched_db_put_msg|intros _].
  apply (keeps_bind _ Htrans); [apply others_untouched_db_get|intros existing].
  apply (keeps_bind _ Htrans).
  { destruct existing; [by apply keeps_as_ids|by apply keeps_ret]. }
  intros parsed.
  apply (keeps_bind _ Htrans); [|intros ?; apply others_untouched_db_put].
  destruct (_ <? _); [|by apply keeps_ret].
  destruct (parsed ++ [id m]); [by apply keeps_ret|].
  apply (keeps_bind _ Htrans);
    [apply others_untouched_db_delete_msg|intros _; by apply keeps_ret].
Qed.



Lemma other_conversation_keys conv other :
  colon_free conv → colon_free other → other ≠ conv →
  conv_key other ≠ conv_key conv
  ∧ (∀ mid, conv_key other ≠ msg_key conv mid)
  ∧ ∀ mid, msg_key other mid ≠ conv_key conv
           ∧ ∀ mid', msg_key other mid ≠ msg_key conv mid'.
Proof.
  intros Hc Ho Hne. split; [|split].
  - intros E. by apply conv_key_inj in E.
  - intros mid E. symmetry in E. by apply msg_key_conv_key in E.
  - intros mid. split; [apply msg_key_conv_key|].
    intros mid' E. by apply msg_key_inj_conv in E as [? _].
Qed.

(** X11.  An append touches the keys of its own conversation only: however
    it ends, also when a call fails half way, it changes neither the id
    list nor any record of another conversation (ids of conversations being
    free of colons, as the generated ones are). *)
Theorem append_leaves_other_conversations m other w :
  colon_free (conversationId m) → colon_free other →
  other ≠ conversationId m →
  chat_db (saveMessage m w).1.2 !! conv_key other = chat_db w !! conv_key other
  ∧ ∀ mid, chat_db (saveMessage m w).1.2 !! msg_key other mid
           = chat_db w !! msg_key other mid.
Proof.
  intros Hc Ho Hne.
  destruct (other_conversation_keys _ _ Hc Ho Hne) as (H1 & H2 & H3).
  pose proof (others_untouched_saveMessage m w) as H.
  split; [by apply H|]. intros mid. apply H; apply H3.
Qed.

Lemma colon_free_conv_b : colon_free "conv_b".
Proof.
  intros c Hc. vm_compute in Hc.
  repeat (apply elem_of_cons in Hc as [->|Hc]; [done|]). by apply elem_of_nil in Hc.
Qed.

Lemma colon_free_c : colon_free "c".
Proof.
  intros c Hc. vm_compute in Hc.
  repeat (apply elem_of_cons in Hc as [->|Hc]; [done|]). by apply elem_of_nil in Hc.
Qed.

Lemma append_leaves_other_conversations_witness :
  chat_db (saveMessage (numbered_message "conv_b" 7) dangling_world).1.2
    !! conv_key "c" = chat_db dangling_world !! conv_key "c"
  ∧ ∀ mid, chat_db (saveMessage (numbered_message "conv_b" 7) dangling_world).1.2
             !! msg_key "c" mid
           = chat_db dangling_world !! msg_key "c" mid.
Proof.
  apply append_leaves_other_conversations.
  - apply colon_free_conv_b.
  - apply colon_free_c.
  - done.
Defined.



(** ** One append *)



(** ** The send mutation, further *)

(** X14.  A client over its quota is answered with the retry text naming 60
    seconds, whether its input is valid or not, after the single read of its
    counter: nothing is written, the chat store and the upstream are not
    touched. *)
Theorem rate_limited_send_touches_nothing input header (k : Z) w :
  reliable w →
  count_of (rate_lookup (clock w) (rate_limit w) (rate_key (client_ip header)))
  = Int k →
  (30 ≤ k)%Z →
  sendMessage input header w
  = (Val (mkSendMessageResponse false None
            (Some "请求过于频繁，请 60 秒后重试") None),
     count_op w,
     [mkEvent (RateGet (rate_key (client_ip header))) true]).
Proof.
  intros Hr Hc Hk. unfold sendMessage, try_catch. fold (client_ip header).
  assert (Hrl : checkRateLimit (client_ip header) w
                = (Val (mkRateLimitCheck false None (Some window)), count_op w,
                   [mkEvent (RateGet (rate_key (client_ip header))) true])).
  { rewrite checkRateLimit_reliable by done. simpl. rewrite Hc. simpl.
    unfold limit. by destruct (Z.leb_spec 30 k) as [_|?]; [|lia]. }
  rewrite (bind_val _ _ _ _ _ _ Hrl). reflexivity.
Qed.

Lemma rate_limited_send_touches_nothing_witness :
  sendMessage hello_input (Some "203.0.113.7")
    (checks_at "203.0.113.7" (replicate 30 0%Z) (quiet_world silent_reply)).1.2
  = (Val (mkSendMessageResponse false None
            (Some "请求过于频繁，请 60 秒后重试") None),
     count_op (checks_at "203.0.113.7" (replicate 30 0%Z)
                         (quiet_world silent_reply)).1.2,
     [mkEvent (RateGet (rate_key (client_ip (Some "203.0.113.7")))) true]).
Proof.
  apply (rate_limited_send_touches_nothing _ _ 30).
  - intros n. reflexivity.
  - vm_compute. reflexivity.
  - lia.
Defined.

(** X15.  With the KV store down altogether, the limiter lets the request
    through and the send then fails at its first read of the chat store: a
    valid input is answered with the "service unavailable" failure after
    two failed calls, nothing is stored and the upstream is not called. *)
Theorem send_with_store_down input header w :
  (∀ n, kv_fault w n = true) → valid (validateMessageInput input) = true →
  sendMessage input header w
  = (Val (mkSendMessageResponse false None
            (Some "服务暂时不可用，请稍后重试") None),
     count_op (count_op w),
     [mkEvent (RateGet (rate_key (client_ip header))) false;
      mkEvent (DbGet (conv_key (in_conversationId input))) false]).
Proof.
  intros Hdown Hv. unfold sendMessage, try_catch. fold (client_ip header).
  assert (Hrl : checkRateLimit (client_ip header) w
                = (Val (mkRateLimitCheck true None None), count_op w,
                   [mkEvent (RateGet (rate_key (client_ip header))) false])).
  { rewrite checkRateLimit_cases. simpl. by rewrite Hdown. }
  rewrite (bind_val _ _ _ _ _ _ Hrl). cbv beta zeta. cbn [allowed negb].
  rewrite Hv. cbn [negb].
  assert (Hread : getConversationMessages (in_conversationId input) (count_op w)
                  = (Exn, count_op (count_op w),
                     [mkEvent (DbGet (conv_key (in_conversationId input))) false])).
  { unfold getConversationMessages. apply bind_exn. rewrite db_get_any. simpl.
    by rewrite Hdown. }
  rewrite (bind_exn _ _ _ _ _ Hread). reflexivity.
Qed.

Lemma send_with_store_down_witness :
  sendMessage hello_input (Some "203.0.113.7") down_world
  = (Val (mkSendMessageResponse false None
            (Some "服务暂时不可用，请稍后重试") None),
     count_op (count_op down_world),
     [mkEvent (RateGet (rate_key (client_ip (Some "203.0.113.7")))) false;
      mkEvent (DbGet (conv_key (in_conversationId hello_input))) false]).
Proof.
  apply send_with_store_down.
  - intros n. reflexivity.
  - reflexivity.
Defined.

Lemma raises_bind_l {A B} (m : M A) (k : A → M B) w w1 :
  raises m w w1 → raises (bind m k) w w1.
Proof. intros [t E]. exists t. by apply bind_exn. Qed.

Lemma raises_bind_r {A B} (m : M A) (k : A → M B) w a w1 w2 :
  returns m w a w1 → raises (k a) w1 w2 → raises (bind m k) w w2.
Proof.
  intros [t1 E1] [t2 E2]. exists (t1 ++ t2).
  by rewrite (bind_val _ _ _ _ _ _ E1), E2.
Qed.

Lemma try_catch_returns {A} (body handler : M A) w a w' :
  returns body w a w' → returns (try_catch body handler) w a w'.
Proof. intros [t E]. exists t. by apply try_catch_val. Qed.

Lemma try_catch_raises {A} (body handler : M A) w w1 a w2 :
  raises body w w1 → returns handler w1 a w2 →
  returns (try_catch body handler) w a w2.
Proof.
  intros [t1 E1] [t2 E2]. exists (t1 ++ t2). unfold try_catch. by rewrite E1, E2.
Qed.

Lemma returns_keeps {A} R (m : M A) w a w' :
  keeps R m → returns m w a w' → R w w'.
Proof. intros H [t E]. by apply (keeps_at R m w (Val a) w' t). Qed.

(** Reading a conversation whose keys hold what they should. *)
Lemma read_typed conv w :
  reliable w → list_typed (chat_db w) conv →
  records_typed conv (chat_db w) (ids_at (chat_db w) conv) →
  ∃ w', returns (getConversationMessages conv) w
          (sort_by_timestamp
             (existing_records conv (chat_db w) (ids_at (chat_db w) conv))) w'
    ∧ chat_db w' = chat_db w ∧ reliable w' ∧ db_step w w'.
Proof.
  intros Hr Ht Hrec. unfold ids_at in *.
  destruct (chat_db w !! conv_key conv) as [[m|ids]|] eqn:El.
  - by destruct (Ht m).
  - destruct (getConversationMessages_returns conv ids w Hr El Hrec)
      as (w' & Hrun & Hd & Hr').
    exists w'. split; [done|]. split; [done|]. split; [done|].
    by apply (returns_keeps _ _ _ _ _ (db_step_getConversationMessages conv) Hrun).
  - exists (count_op w). split; [by apply getConversationMessages_unknown|done].
Qed.

Lemma save_typed m w :
  reliable w → list_typed (chat_db w) (conversationId m) →
  ∃ w', returns (saveMessage m) w tt w'
    ∧ chat_db w' = save_db m (chat_db w) ∧ reliable w' ∧ db_step w w'.
Proof.
  intros Hr Ht. destruct (saveMessage_returns m w Hr Ht) as (w' & Hrun & Hd & Hr').
  exists w'. split; [done|]. split; [done|]. split; [done|].
  by apply (returns_keeps _ _ _ _ _ (db_step_saveMessage m) Hrun).
Qed.

Lemma save_db_list_typed m d : list_typed (save_db m d) (conversationId m).
Proof.
  intros m'. unfold save_db. destruct (_ <? _); by rewrite lookup_insert_eq.
Qed.

Lemma checkRateLimit_allowed ip w :
  reliable w →
  num_geb (count_of (rate_lookup (clock w) (rate_limit w) (rate_key ip)))
          (Int limit) = false →
  ∃ rl w', returns (checkRateLimit ip) w rl w' ∧ allowed rl = true
    ∧ chat_db w' = chat_db w ∧ reliable w' ∧ clock w' = clock w
    ∧ drawn w' = drawn w ∧ entropy w' = entropy w ∧ upstream w' = upstream w.
Proof.
  intros Hr Hc. eexists _, _. split.
  { eexists. rewrite checkRateLimit_reliable by done. simpl. rewrite Hc.
    reflexivity. }
  done.
Qed.

Lemma callDeepSeekAPI_returns text history model temperature maxTokens w data reply :
  outcome (upstream w (mkRequestBody model (prompt_messages text history)
                                     temperature maxTokens false))
  = HttpOk (Some data) →
  first_choice data = Some reply →
  returns (callDeepSeekAPI text history model temperature maxTokens) w
    (mkCompletion reply (data_usage data))
    (set_clock (clock w + elapsed (upstream w
        (mkRequestBody model (prompt_messages text history) temperature
                       maxTokens false))) w).
Proof.
  intros Ho Hc. eexists. unfold callDeepSeekAPI, bind, fetch_completion.
  rewrite Ho. simpl. rewrite Hc. reflexivity.
Qed.

Lemma callDeepSeekAPI_raises text history model temperature maxTokens w :
  no_completion
    (outcome (upstream w (mkRequestBody model (prompt_messages text history)
                                        temperature maxTokens false))) →
  raises (callDeepSeekAPI text history model temperature maxTokens) w
    (set_clock (clock w + elapsed (upstream w
        (mkRequestBody model (prompt_messages text history) temperature
                       maxTokens false))) w).
Proof.
  intros Hn. unfold raises, callDeepSeekAPI, bind, fetch_completion.
  destruct (outcome (upstream w _)) as [|status|[data|]]; simpl;
    try (by eexists).
  unfold no_completion in Hn. rewrite Hn. by eexists.
Qed.

Lemma generateMessageId_returns w :
  returns generateMessageId w ("msg_" +:+ entropy w (drawn w)) (count_draw w).
Proof. by eexists. Qed.

Lemma now_returns w : returns now w (clock w) w.
Proof. by eexists. Qed.

(** A valid input from a client within quota, on a store that answers and
    holds what it should: the send saves the user turn and comes to the
    upstream call. *)
Lemma send_reaches_upstream input header w :
  let conv := in_conversationId input in
  let history := history_of conv (chat_db w) in
  reliable w → valid (validateMessageInput input) = true →
  num_geb (count_of (rate_lookup (clock w) (rate_limit w)
                                 (rate_key (client_ip header))))
          (Int limit) = false →
  list_typed (chat_db w) conv →
  records_typed conv (chat_db w) (ids_at (chat_db w) conv) →
  ∃ w5, chat_db w5 = save_db (user_turn input w) (chat_db w)
    ∧ reliable w5 ∧ clock w5 = clock w ∧ drawn w5 = S (drawn w)
    ∧ entropy w5 = entropy w ∧ upstream w5 = upstream w
    ∧ (∀ r w', returns (upstream_stage input history) w5 r w' →
               returns (sendMessage input header) w r w')
    ∧ (∀ w', raises (upstream_stage input history) w5 w' →
             returns (sendMessage input header) w unavailable w').
Proof.
  intros conv history Hr Hv Hq Hlt Hrt.
  destruct (checkRateLimit_allowed (client_ip header) w Hr Hq)
    as (rl & w1 & Hrl & Hal & Hd1 & Hr1 & Hc1 & Hn1 & He1 & Hu1).
  destruct (read_typed conv w1) as (w2 & Hread & Hd2 & Hr2 & Hs2);
    [done|by rewrite Hd1|by rewrite Hd1|].
  rewrite Hd1 in Hread. fold (history_of conv (chat_db w)) in Hread.
  fold history in Hread.
  destruct Hs2 as (_ & Hc2 & _ & Hn2 & He2 & Hu2).
  assert (Huser : mkMessage ("msg_" +:+ entropy w2 (drawn w2)) (in_message input)
                    USER (clock (count_draw w2)) conv None
                    (estimateTokens (in_message input))
                  = user_turn input w).
  { unfold user_turn. simpl. by rewrite He2, Hn2, Hc2, He1, Hn1, Hc1. }
  destruct (save_typed (user_turn input w) (count_draw w2))
    as (w5 & Hsave & Hd5 & Hr5 & Hs5); [done|simpl; by rewrite Hd2, Hd1|].
  simpl in Hd5. rewrite Hd2, Hd1 in Hd5.
  destruct Hs5 as (_ & Hc5 & _ & Hn5 & He5 & Hu5). simpl in Hc5, Hn5, He5, Hu5.
  exists w5. split; [done|]. split; [done|].
  split; [congruence|]. split; [congruence|]. split; [congruence|].
  split; [congruence|].
  split.
  - intros r w' Hrest. unfold sendMessage. fold (client_ip header).
    apply try_catch_returns.
    eapply returns_bind; [exact Hrl|]. cbv beta zeta. rewrite Hal, Hv. cbn [negb].
    eapply returns_bind; [exact Hread|].
    eapply returns_bind; [apply generateMessageId_returns|].
    eapply returns_bind; [apply now_returns|]. fold conv. rewrite Huser.
    eapply returns_bind; [exact Hsave|]. exact Hrest.
  - intros w' Hrest. unfold sendMessage. fold (client_ip header).
    eapply try_catch_raises; [|apply returns_ret].
    eapply raises_bind_r; [exact Hrl|]. cbv beta zeta. rewrite Hal, Hv. cbn [negb].
    eapply raises_bind_r; [exact Hread|].
    eapply raises_bind_r; [apply generateMessageId_returns|].
    eapply raises_bind_r; [apply now_returns|]. fold conv. rewrite Huser.
    eapply raises_bind_r; [exact Hsave|]. exact Hrest.
Qed.

Lemma save_db_last m d :
  last (ids_at (save_db m d) (conversationId m)) = Some (id m).
Proof.
  unfold save_db. set (ids := ids_at d (conversationId m)).
  destruct (Nat.ltb_spec 100 (length (ids ++ [id m]))) as [Hlt|Hge];
    unfold ids_at; rewrite lookup_insert_eq.
  - destruct ids as [|x ids]; [simpl in Hlt; lia|]. simpl. apply last_snoc.
  - apply last_snoc.
Qed.

Lemma within_quota (k : Z) count :
  count = Int k → (k < 30)%Z → num_geb count (Int limit) = false.
Proof. intros -> H. simpl. unfold limit. by destruct (Z.leb_spec 30 k); [lia|]. Qed.

(** X16.  When the upstream gives no completion (the fetch is rejected, the
    status is not 2xx, the body is not JSON or has no choice), a valid send
    from a client within quota is answered with the "service unavailable"
    failure, and the user message stays saved as the last turn of the
    conversation, without an assistant turn after it. *)
Theorem failed_upstream_leaves_user_turn input header (k : Z) w :
  let conv := in_conversationId input in
  reliable w → valid (validateMessageInput input) = true →
  count_of (rate_lookup (clock w) (rate_limit w) (rate_key (client_ip header)))
  = Int k →
  (k < 30)%Z →
  list_typed (chat_db w) conv →
  records_typed conv (chat_db w) (ids_at (chat_db w) conv) →
  (∀ body, no_completion (outcome (upstream w body))) →
  ∃ w', returns (sendMessage input header) w unavailable w'
    ∧ chat_db w' = save_db (user_turn input w) (chat_db w)
    ∧ last (ids_at (chat_db w') conv) = Some (id (user_turn input w)).
Proof.
  intros conv Hr Hv Hc Hk Hlt Hrt Hno.
  destruct (send_reaches_upstream input header w Hr Hv (within_quota k _ Hc Hk) Hlt Hrt)
    as (w5 & Hd5 & Hr5 & _ & _ & _ & Hu5 & _ & Hfail).
  eexists. split; [|split].
  - apply Hfail. unfold upstream_stage. apply raises_bind_l.
    apply callDeepSeekAPI_raises. rewrite Hu5. apply Hno.
  - simpl. exact Hd5.
  - simpl. rewrite Hd5. apply (save_db_last (user_turn input w)).
Qed.

Lemma failed_upstream_leaves_user_turn_witness :
  let conv := in_conversationId hello_input in
  let w := quiet_world silent_reply in
  ∃ w', returns (sendMessage hello_input (Some "203.0.113.7")) w unavailable w'
    ∧ chat_db w' = save_db (user_turn hello_input w) (chat_db w)
    ∧ last (ids_at (chat_db w') conv) = Some (id (user_turn hello_input w)).
Proof.
  apply (failed_upstream_leaves_user_turn hello_input (Some "203.0.113.7") 0
           (quiet_world silent_reply)).
  - intros n. reflexivity.
  - reflexivity.
  - reflexivity.
  - lia.
  - intros m. by vm_compute.
  - intros mid l Hin. by apply elem_of_nil in Hin.
  - intros body. exact I.
Defined.

Lemma Sorted_snoc {A} (R : A → A → Prop) (l : list A) y :
  Sorted R l → (∀ x, last l = Some x → R x y) → Sorted R (l ++ [y]).
Proof.
  induction 1 as [|x l Hs IH Hhd]; intros Hlast; simpl.
  - by repeat constructor.
  - constructor.
    + apply IH. intros z Hz. apply Hlast.
      destruct l; [done|]. by rewrite last_cons_cons.
    + destruct Hhd as [|z l Hxz]; simpl; constructor; [|done].
      by apply Hlast.
Qed.

Lemma log_inv_history conv ms d :
  log_inv conv ms d → Sorted timestamp_le ms →
  history_of conv d = slice_last 100 ms
  ∧ records_typed conv d (ids_at d conv).
Proof.
  intros [Hids Hty Hkept Hgone] Hs. unfold history_of. rewrite Hids. split.
  - rewrite (existing_records_kept _ _ _ Hkept).
    apply sort_by_timestamp_id. by apply Sorted_drop.
  - intros mid l Hin. apply list_elem_of_fmap in Hin as (m & -> & Hm).
    by rewrite (Hkept m Hm).
Qed.

(** X17.  A successful send appends exactly two turns to the log of the
    conversation.  For a conversation built by appends of [ms], a valid
    input from a client within quota, ids not yet used and an upstream that
    answers: the prompt is built from the retained messages as they were
    before the send, the answer is the assistant turn, and afterwards the
    conversation is the log of [ms] followed by the user turn and the
    assistant turn, which is what the next read returns (its last 100). *)
Theorem successful_send_appends_both_turns input header (k : Z)
  (ms : list Message) w data reply :
  let conv := in_conversationId input in
  let body := send_body input (slice_last 100 ms) in
  let u := user_turn input w in
  let a := assistant_turn input w (elapsed (upstream w body)) reply
                          (data_usage data) in
  reliable w → valid (validateMessageInput input) = true →
  count_of (rate_lookup (clock w) (rate_limit w) (rate_key (client_ip header)))
  = Int k →
  (k < 30)%Z →
  log_inv conv ms (chat_db w) → Sorted timestamp_le ms →
  (∀ m, last ms = Some m → (timestamp m ≤ clock w)%Z) →
  NoDup (id <$> (ms ++ [u; a])) →
  (0 ≤ elapsed (upstream w body))%Z →
  outcome (upstream w body) = HttpOk (Some data) →
  first_choice data = Some reply →
  ∃ w', returns (sendMessage input header) w
          (mkSendMessageResponse true (Some a) None
             (match data_usage data with
              | Some us => Some (mkTokenUsage (prompt_tokens us)
                                              (completion_tokens us)
                                              (total_tokens us))
              | None => None
              end)) w'
    ∧ log_inv conv (ms ++ [u; a]) (chat_db w')
    ∧ Sorted timestamp_le (ms ++ [u; a])
    ∧ ∃ w'', returns (getConversationMessages conv) w'
               (slice_last 100 (ms ++ [u; a])) w''.
Proof.
  intros conv body u a Hr Hv Hc Hk Hinv Hs Hts Hnd Hel Hout Hchoice.
  destruct (log_inv_history conv ms (chat_db w) Hinv Hs) as [Hhist Hrt].
  destruct (send_reaches_upstream input header w Hr Hv (within_quota k _ Hc Hk)
              (inv_typed _ _ _ Hinv) Hrt)
    as (w5 & Hd5 & Hr5 & Hc5 & Hn5 & He5 & Hu5 & Hok & _).
  fold conv in Hok. rewrite Hhist in Hok. fold u in Hd5.
  assert (Hnd1 : NoDup (id <$> (ms ++ [u]))).
  { replace (ms ++ [u; a]) with ((ms ++ [u]) ++ [a]) in Hnd
      by (by rewrite <- app_assoc).
    rewrite fmap_app in Hnd. by apply NoDup_app in Hnd as (? & _). }
  assert (Hinv1 : log_inv conv (ms ++ [u]) (chat_db w5)).
  { rewrite Hd5. by apply log_inv_snoc. }
  set (w6 := set_clock (clock w5 + elapsed (upstream w5 body)) w5).
  assert (Hai : mkMessage ("msg_" +:+ entropy w6 (drawn w6)) reply ASSISTANT
                  (clock (count_draw w6)) conv (in_model input)
                  (completion_tokens_or_zero (data_usage data)) = a).
  { unfold a, assistant_turn. subst w6. simpl. by rewrite He5, Hn5, Hc5, Hu5. }
  destruct (save_typed a (count_draw w6)) as (w9 & Hsave & Hd9 & Hr9 & _).
  { done. }
  { simpl. rewrite Hd5. apply (save_db_list_typed u). }
  simpl in Hd9.
  assert (Hinv2 : log_inv conv (ms ++ [u; a]) (chat_db w9)).
  { rewrite Hd9. replace (ms ++ [u; a]) with ((ms ++ [u]) ++ [a])
      by (by rewrite <- app_assoc).
    apply log_inv_snoc; [done|done|]. by rewrite <- app_assoc. }
  assert (Hsorted : Sorted timestamp_le (ms ++ [u; a])).
  { replace (ms ++ [u; a]) with ((ms ++ [u]) ++ [a]) by (by rewrite <- app_assoc).
    apply Sorted_snoc.
    - apply Sorted_snoc; [done|]. intros m Hm. unfold timestamp_le. simpl.
      by apply Hts.
    - intros m Hm. rewrite last_snoc in Hm. injection Hm as <-.
      unfold timestamp_le. simpl. lia. }
  exists w9. split; [|split; [done|split; [done|]]].
  - apply Hok. unfold upstream_stage.
    eapply returns_bind.
    { apply callDeepSeekAPI_returns; [|exact Hchoice].
      rewrite Hu5. exact Hout. }
    match goal with |- returns _ ?W _ _ => change W with w6 end.
    cbn [completion_content completion_usage].
    eapply returns_bind; [apply generateMessageId_returns|].
    eapply returns_bind; [apply now_returns|].
    fold conv. rewrite Hai.
    eapply returns_bind; [exact Hsave|]. apply returns_ret.
  - destruct (log_inv_read conv (ms ++ [u; a]) w9 Hr9 Hinv2 Hsorted)
      as (w'' & Hread & _).
    by exists w''.
Qed.

Lemma successful_send_appends_both_turns_witness :
  let input := hello_input in
  let w := quiet_world reply_with_usage in
  let data := mkCompletionData (Some "hi there") (Some (mkUsage 5 3 8)) in
  let conv := in_conversationId input in
  let body := send_body input (slice_last 100 []) in
  let u := user_turn input w in
  let a := assistant_turn input w (elapsed (upstream w body)) "hi there"
                          (data_usage data) in
  ∃ w', returns (sendMessage input (Some "203.0.113.7")) w
          (mkSendMessageResponse true (Some a) None
             (match data_usage data with
              | Some us => Some (mkTokenUsage (prompt_tokens us)
                                              (completion_tokens us)
                                              (total_tokens us))
              | None => None
              end)) w'
    ∧ log_inv conv ([] ++ [u; a]) (chat_db w')
    ∧ Sorted timestamp_le ([] ++ [u; a])
    ∧ ∃ w'', returns (getConversationMessages conv) w'
               (slice_last 100 ([] ++ [u; a])) w''.
Proof.
  apply (successful_send_appends_both_turns hello_input (Some "203.0.113.7") 0 []
           (quiet_world reply_with_usage)
           (mkCompletionData (Some "hi there") (Some (mkUsage 5 3 8))) "hi there").
  - intros n. reflexivity.
  - reflexivity.
  - reflexivity.
  - lia.
  - apply log_inv_nil. reflexivity.
  - constructor.
  - intros m [=].
  - refine (bool_decide_unpack _ _). vm_compute. reflexivity.
  - vm_compute. discriminate.
  - reflexivity.
  - reflexivity.
Defined.

Lemma validation_error_some input :
  valid (validateMessageInput input) = false →
  ∃ e, validation_error (validateMessageInput input) = Some e.
Proof.
  unfold validateMessageInput.
  repeat match goal with
         | |- context [if ?b then _ else _] => destruct b
         end; simpl; eauto; done.
Qed.

(** X18.  The send mutation never throws: whatever the input, the stores,
    the faults and the upstream, it returns a response, which is either a
    success with a message and no error, or a failure with an error text
    and neither message nor usage. *)
Theorem sendMessage_always_answers input header w :
  ∃ r w' t, sendMessage input header w = (Val r, w', t)
    ∧ (success r = true → ∃ m, message r = Some m ∧ error r = None)
    ∧ (success r = false →
       message r = None ∧ usage r = None ∧ ∃ e, error r = Some e).
Proof.
  unfold sendMessage. fold (client_ip header). unfold try_catch.
  match goal with |- context [bind ?m ?k w] =>
    destruct (bind m k w) as [[[r0|] w0] t0] eqn:Hbody end; simpl.
  2: { eexists _, _, _. split; [done|]. split; [done|]. simpl. eauto. }
  exists r0, w0, t0. split; [done|].
  apply bind_inv in Hbody as (rl & w1 & t1 & t2 & Hrl & Hrest & ->).
  destruct (allowed rl); simpl in Hrest.
  2: { injection Hrest as <- _ _. split; [done|]. simpl. eauto. }
  destruct (valid (validateMessageInput input)) eqn:Hv; simpl in Hrest.
  2: { injection Hrest as <- _ _. split; [done|]. simpl.
       destruct (validation_error_some input Hv) as [e He]. eauto. }
  apply bind_inv in Hrest as (history & w2 & t3 & t4 & _ & Hrest & ->).
  apply bind_inv in Hrest as (uid & w3 & t5 & t6 & _ & Hrest & ->).
  apply bind_inv in Hrest as (utime & w4 & t7 & t8 & _ & Hrest & ->).
  apply bind_inv in Hrest as ([] & w5 & t9 & t10 & _ & Hrest & ->).
  apply bind_inv in Hrest as (resp & w6 & t11 & t12 & _ & Hrest & ->).
  apply bind_inv in Hrest as (aid & w7 & t13 & t14 & _ & Hrest & ->).
  apply bind_inv in Hrest as (atime & w8 & t15 & t16 & _ & Hrest & ->).
  apply bind_inv in Hrest as ([] & w9 & t17 & t18 & _ & Hrest & ->).
  injection Hrest as <- _ _. simpl. split; [eauto|done].
Qed.

(** ** What precedes the upstream call *)

Section Emits.
Variable P : Event → Prop.

Lemma emits_ret {A} (a : A) : emits P (ret a).
Proof. intros w. constructor. Qed.

Lemma emits_throw {A} : emits P (@throw A).
Proof. intros w. constructor. Qed.

Lemma emits_bind {A B} (m : M A) (k : A → M B) :
  emits P m → (∀ a, emits P (k a)) → emits P (bind m k).
Proof.
  intros Hm Hk w. unfold bind. specialize (Hm w).
  destruct (m w) as [[[a|] w1] t1]; [|done].
  specialize (Hk a w1). destruct (k a w1) as [[r w2] t2]. simpl in *.
  by apply Forall_app.
Qed.

Lemma emits_kv_call {A} op (f : World → A * World) :
  (∀ ok, P (mkEvent op ok)) → emits P (kv_call op f).
Proof.
  intros Hop w. unfold kv_call. destruct (kv_fault w (kv_ops w)).
  - by repeat constructor.
  - destruct (f (count_op w)). by repeat constructor.
Qed.

Lemma emits_as_ids v : emits P (as_ids v).
Proof. destruct v; [apply emits_throw|apply emits_ret]. Qed.

Lemma emits_collect_messages conv ids :
  (∀ key, emits P (db_get key)) → ∀ acc, emits P (collect_messages conv ids acc).
Proof.
  intros Hget. induction ids as [|mid ids IH]; intros acc; [apply emits_ret|].
  simpl. apply emits_bind; [apply Hget|].
  intros [[m|l]|]; [apply IH|apply emits_throw|apply IH].
Qed.

Lemma emits_getConversationMessages conv :
  (∀ key, emits P (db_get key)) → emits P (getConversationMessages conv).
Proof.
  intros Hget. unfold getConversationMessages.
  apply emits_bind; [apply Hget|].
  intros [v|]; [|apply emits_ret].
  apply emits_bind; [apply emits_as_ids|intros ids].
  apply emits_bind; [by apply emits_collect_messages|].
  intros ?. apply emits_ret.
Qed.

Lemma emits_saveMessage m :
  (∀ key, emits P (db_get key)) → (∀ key v, emits P (db_put key v)) →
  (∀ key, emits P (db_delete key)) → emits P (saveMessage m).
Proof.
  intros Hget Hput Hdel. unfold saveMessage.
  apply emits_bind; [apply Hput|intros _].
  apply emits_bind; [apply Hget|intros existing].
  apply emits_bind.
  { destruct existing; [apply emits_as_ids|apply emits_ret]. }
  intros parsed. apply emits_bind; [|intros ?; apply Hput].
  destruct (_ <? _); [|apply emits_ret].
  destruct (parsed ++ [id m]); [apply emits_ret|].
  apply emits_bind; [apply Hdel|intros _; apply emits_ret].
Qed.
End Emits.

Lemma no_fetch_getConversationMessages conv :
  emits no_fetch (getConversationMessages conv).
Proof. apply emits_getConversationMessages. intros key. by apply emits_kv_call. Qed.

Lemma no_fetch_saveMessage m : emits no_fetch (saveMessage m).
Proof.
  apply emits_saveMessage; intros; by apply emits_kv_call.
Qed.

Lemma no_fetch_checkRateLimit ip : emits no_fetch (checkRateLimit ip).
Proof.
  intros w. destruct (checkRateLimit_total ip w) as (rl & w1 & t1 & E & _ & _ & _ & H).
  rewrite E. simpl. eapply Forall_impl; [exact H|].
  intros [[] ok]; simpl; done.
Qed.

Lemma no_fetch_generateMessageId : emits no_fetch generateMessageId.
Proof. intros w. constructor. Qed.

Lemma no_fetch_now : emits no_fetch now.
Proof. intros w. constructor. Qed.

(** A call to the upstream found in the trace of [bind m k], where [m]
    makes none, comes from [k], after [m] has returned. *)
Lemma fetch_after {A B} (m : M A) (k : A → M B) w body ok :
  emits no_fetch m → mkEvent (Fetch body) ok ∈ (bind m k w).2 →
  ∃ a w1 t1, m w = (Val a, w1, t1) ∧ mkEvent (Fetch body) ok ∈ (k a w1).2.
Proof.
  intros Hm. specialize (Hm w). unfold bind.
  destruct (m w) as [[[a|] w1] t1]; simpl in *.
  - destruct (k a w1) as [[r w2] t2] eqn:Ek. simpl. intros Hin.
    apply elem_of_app in Hin as [Hin|Hin].
    + rewrite Forall_forall in Hm. by specialize (Hm _ Hin).
    + exists a, w1, t1. by rewrite Ek.
  - intros Hin. rewrite Forall_forall in Hm. by specialize (Hm _ Hin).
Qed.

Lemma fetch_before {A B} (m : M A) (k : A → M B) w body ok :
  (∀ a, emits no_fetch (k a)) → mkEvent (Fetch body) ok ∈ (bind m k w).2 →
  mkEvent (Fetch body) ok ∈ (m w).2.
Proof.
  intros Hk. unfold bind.
  destruct (m w) as [[[a|] w1] t1]; simpl; [|done].
  specialize (Hk a w1). destruct (k a w1) as [[r w2] t2]. simpl in *. intros Hin.
  apply elem_of_app in Hin as [Hin|Hin]; [done|].
  rewrite Forall_forall in Hk. by specialize (Hk _ Hin).
Qed.

Lemma event_kept {A B} (m : M A) (k : A → M B) w a w1 t1 e :
  m w = (Val a, w1, t1) → e ∈ t1 ∨ e ∈ (k a w1).2 → e ∈ (bind m k w).2.
Proof.
  intros E Hin. rewrite (bind_val _ _ _ _ _ _ E).
  destruct (k a w1) as [[r w2] t2]. simpl in *. by apply elem_of_app.
Qed.

Lemma try_catch_trace {A} (body : M A) (a : A) w e :
  e ∈ (try_catch body (ret a) w).2 ↔ e ∈ (body w).2.
Proof.
  unfold try_catch. destruct (body w) as [[[r|] w1] t1]; simpl; [done|].
  by rewrite app_nil_r.
Qed.

(** X19.  The upstream is called only for an input that passed the
    validation, and only after the user message was written to the store;
    the call carries the model, the temperature and the token limit of the
    input unchanged, no streaming, and a prompt that ends with the text of
    the user. *)
Theorem upstream_call_comes_after_user_turn input header w body ok :
  mkEvent (Fetch body) ok ∈ trace_of (sendMessage input header) w →
  valid (validateMessageInput input) = true
  ∧ (∃ history, body = send_body input history)
  ∧ body_model body = in_model input
  ∧ body_temperature body = in_temperature input
  ∧ body_max_tokens body = in_maxTokens input
  ∧ body_stream body = false
  ∧ last (body_messages body) = Some (mkChatMessage "user" (in_message input))
  ∧ ∃ u, role u = USER ∧ content u = in_message input
         ∧ conversationId u = in_conversationId input
         ∧ tokens u = estimateTokens (in_message input)
         ∧ mkEvent (DbPut (msg_key (in_conversationId input) (id u)) (JMessage u))
                   true ∈ trace_of (sendMessage input header) w.
Proof.
  unfold trace_of, sendMessage. fold (client_ip header).
  rewrite try_catch_trace. intros Hin.
  apply fetch_after in Hin as (rl & w1 & t1 & Hrl & Hin);
    [|apply no_fetch_checkRateLimit].
  destruct (allowed rl) eqn:Hal; simpl in Hin; [|by apply elem_of_nil in Hin].
  destruct (valid (validateMessageInput input)) eqn:Hv; simpl in Hin;
    [|by apply elem_of_nil in Hin].
  apply fetch_after in Hin as (history & w2 & t2 & Hread & Hin);
    [|apply no_fetch_getConversationMessages].
  apply fetch_after in Hin as (uid & w3 & t3 & Huid & Hin);
    [|apply no_fetch_generateMessageId].
  apply fetch_after in Hin as (utime & w4 & t4 & Hutime & Hin);
    [|apply no_fetch_now].
  apply fetch_after in Hin as ([] & w5 & t5 & Hsave & Hin);
    [|apply no_fetch_saveMessage].
  apply fetch_before in Hin.
  2: { intros resp. apply emits_bind; [apply no_fetch_generateMessageId|intros ?].
       apply emits_bind; [apply no_fetch_now|intros ?].
       apply emits_bind; [apply no_fetch_saveMessage|intros ?]. apply emits_ret. }
  destruct (callDeepSeekAPI_trace (in_message input) history (in_model input)
              (in_temperature input) (in_maxTokens input) w5) as [ok' Ht].
  unfold trace_of in Ht. rewrite Ht in Hin.
  apply list_elem_of_singleton in Hin. injection Hin as -> ->.
  split; [done|]. split; [by exists history|].
  split; [done|]. split; [done|]. split; [done|]. split; [done|].
  split; [cbn [body_messages]; unfold prompt_messages; cbv zeta; apply last_snoc|].
  eexists. split; [|split; [|split; [|split]]]; [| | | |rewrite try_catch_trace].
  5: { eapply event_kept; [exact Hrl|right]. cbv beta zeta. rewrite Hal.
       cbn [negb].
       eapply event_kept; [exact Hread|right].
       eapply event_kept; [exact Huid|right].
       eapply event_kept; [exact Hutime|right].
       eapply event_kept; [exact Hsave|left].
       apply (saveMessage_records _ _ _ _ Hsave). }
  all: done.
Qed.

Lemma upstream_call_comes_after_user_turn_witness :
  let body := send_body hello_input [] in
  valid (validateMessageInput hello_input) = true
  ∧ (∃ history, body = send_body hello_input history)
  ∧ body_model body = in_model hello_input
  ∧ body_temperature body = in_temperature hello_input
  ∧ body_max_tokens body = in_maxTokens hello_input
  ∧ body_stream body = false
  ∧ last (body_messages body) = Some (mkChatMessage "user" (in_message hello_input))
  ∧ ∃ u, role u = USER ∧ content u = in_message hello_input
         ∧ conversationId u = in_conversationId hello_input
         ∧ tokens u = estimateTokens (in_message hello_input)
         ∧ mkEvent (DbPut (msg_key (in_conversationId hello_input) (id u))
                          (JMessage u)) true
           ∈ trace_of (sendMessage hello_input (Some "203.0.113.7"))
                      (quiet_world reply_with_usage).
Proof.
  apply (upstream_call_comes_after_user_turn hello_input (Some "203.0.113.7")
           (quiet_world reply_with_usage) (send_body hello_input []) true).
  vm_compute. do 6 right. left.
Defined.

(** ** The rate limiter and the send *)

(** X20.  Inside one window every check after the 30th is rejected, not the
    31st alone: of any number of checks made within 60 seconds of the first,
    the check number [j] (from 0) is allowed with [29 - j] remaining when
    [j < 30] and rejected with reset time 60 otherwise. *)
Theorem window_verdicts ip t1 (rest : list Z) w :
  reliable w → rate_lookup t1 (rate_limit w) (rate_key ip) = None →
  Forall (in_window t1) rest →
  (∃ w', returns (checks_at ip (t1 :: rest)) w
           (verdict <$> seq 0 (S (length rest))) w')
  ∧ (∀ j, j < 30 →
          verdict j = mkRateLimitCheck true (Some (Int (29 - Z.of_nat j))) None)
  ∧ (∀ j, 30 ≤ j → verdict j = mkRateLimitCheck false None (Some 60%Z)).
Proof.
  intros Hr Hfresh Hin. split; [|split].
  - apply (checks_at_verdicts ip t1 (t1 :: rest) 0 w); [done| |].
    + by apply counter_reads_fresh.
    + constructor; [|done]. unfold in_window, window. lia.
  - intros j Hj. unfold verdict. by destruct (Nat.ltb_spec j 30); [|lia].
  - intros j Hj. unfold verdict. by destruct (Nat.ltb_spec j 30); [lia|].
Qed.

Lemma window_verdicts_witness :
  (∃ w', returns (checks_at "203.0.113.7" (0%Z :: replicate 40 1000%Z))
           (quiet_world silent_reply)
           (verdict <$> seq 0 (S (length (replicate 40 1000%Z)))) w')
  ∧ (∀ j, j < 30 →
          verdict j = mkRateLimitCheck true (Some (Int (29 - Z.of_nat j))) None)
  ∧ (∀ j, 30 ≤ j → verdict j = mkRateLimitCheck false None (Some 60%Z)).
Proof.
  apply window_verdicts.
  - intros n. reflexivity.
  - reflexivity.
  - apply Forall_replicate. unfold in_window, window. lia.
Defined.



Lemma same_rate_limit_refl w : same_rate_limit w w.
Proof. done. Qed.

Lemma same_rate_limit_trans w1 w2 w3 :
  same_rate_limit w1 w2 → same_rate_limit w2 w3 → same_rate_limit w1 w3.
Proof. unfold same_rate_limit. congruence. Qed.

Lemma same_rate_limit_db_get key : keeps same_rate_limit (db_get key).
Proof.
  by apply (keeps_kv_call _ same_rate_limit_refl same_rate_limit_trans).
Qed.

Lemma same_rate_limit_db_put key v : keeps same_rate_limit (db_put key v).
Proof.
  by apply (keeps_kv_call _ same_rate_limit_refl same_rate_limit_trans).
Qed.

Lemma same_rate_limit_db_delete key : keeps same_rate_limit (db_delete key).
Proof.
  by apply (keeps_kv_call _ same_rate_limit_refl same_rate_limit_trans).
Qed.

Lemma same_rate_limit_callDeepSeekAPI text history model temperature maxTokens :
  keeps same_rate_limit
        (callDeepSeekAPI text history model temperature maxTokens).
Proof.
  intros w. unfold callDeepSeekAPI, bind, fetch_completion.
  destruct (outcome (upstream w _)) as [|status|[data|]]; simpl; try done.
  by destruct (first_choice data).
Qed.

(** Past the rate check, the send does not touch the counter store. *)
Lemma same_rate_limit_after_check input rl :
  keeps same_rate_limit
    (if negb (allowed rl) then
       ret (mkSendMessageResponse false None (Some (rate_limit_error rl)) None)
     else if negb (valid (validateMessageInput input)) then
       ret (mkSendMessageResponse false None
              (validation_error (validateMessageInput input)) None)
     else
       let* conversationHistory :=
         getConversationMessages (in_conversationId input) in
       let* userId := generateMessageId in
       let* userTime := now in
       saveMessage (mkMessage userId (in_message input) USER userTime
                      (in_conversationId input) None
                      (estimateTokens (in_message input))) ;;;
       upstream_stage input conversationHistory).
Proof.
  pose proof same_rate_limit_refl as Hrefl.
  pose proof same_rate_limit_trans as Htrans.
  destruct (negb (allowed rl)); [by apply keeps_ret|].
  destruct (negb (valid _)); [by apply keeps_ret|].
  apply (keeps_bind _ Htrans).
  { apply (keeps_getConversationMessages _ Hrefl Htrans), same_rate_limit_db_get. }
  intros history. apply (keeps_bind _ Htrans); [done|intros uid].
  apply (keeps_bind _ Htrans); [done|intros utime].
  apply (keeps_bind _ Htrans).
  { apply (keeps_saveMessage _ Hrefl Htrans);
      [apply same_rate_limit_db_get|apply same_rate_limit_db_put
      |apply same_rate_limit_db_delete]. }
  intros _. unfold upstream_stage.
  apply (keeps_bind _ Htrans); [apply same_rate_limit_callDeepSeekAPI|intros resp].
  apply (keeps_bind _ Htrans); [done|intros aid].
  apply (keeps_bind _ Htrans); [done|intros atime].
  apply (keeps_bind _ Htrans); [|intros _; by apply keeps_ret].
  apply (keeps_saveMessage _ Hrefl Htrans);
    [apply same_rate_limit_db_get|apply same_rate_limit_db_put
    |apply same_rate_limit_db_delete].
Qed.

(** X22.  Every send that finds the counter of its client below the limit
    costs exactly one request of the quota, whatever becomes of it
    afterwards (invalid input, failing chat store, failing upstream): the
    counter goes from [k] to [k + 1], with 60 seconds to live from the time
    of the send, and nothing else in the counter store changes.  The count
    is taken above -2^53, where the addition of 1 is exact in the numbers
    of the code. *)
Theorem send_costs_one_request input header (k : Z) w :
  kv_fault w (kv_ops w) = false → kv_fault w (S (kv_ops w)) = false →
  count_of (rate_lookup (clock w) (rate_limit w) (rate_key (client_ip header)))
  = Int k →
  (- 9007199254740992 < k < 30)%Z →
  rate_limit (sendMessage input header w).1.2
  = <[rate_key (client_ip header)
      := mkRateEntry (num_toString (Int (k + 1))) (clock w + 60000)]>
      (rate_limit w).
Proof.
  intros Hf1 Hf2 Hc Hk. unfold sendMessage. fold (client_ip header).
  assert (Hrl : ∃ rl w1 t1, checkRateLimit (client_ip header) w = (Val rl, w1, t1)
                  ∧ rate_limit w1
                    = <[rate_key (client_ip header)
                        := mkRateEntry (num_toString (Int (k + 1)))
                                       (clock w + 60000)]> (rate_limit w)).
  { rewrite checkRateLimit_cases. simpl. rewrite Hf1, Hf2, Hc. simpl.
    unfold limit. destruct (Z.leb_spec 30 k) as [?|_]; [lia|].
    by eexists _, _, _. }
  destruct Hrl as (rl & w1 & t1 & Hrl & Hrate).
  pose proof (same_rate_limit_after_check input rl w1) as Hrest.
  unfold try_catch. rewrite (bind_val _ _ _ _ _ _ Hrl).
  match goal with
  | H : same_rate_limit w1 (?m w1).1.2 |- context [?m' w1] =>
      change (m' w1) with (m w1); destruct (m w1) as [[[r|] w2] t2]
  end; simpl in *; by rewrite <- Hrate.
Qed.

Lemma send_costs_one_request_witness :
  rate_limit (sendMessage empty_input (Some "203.0.113.7")
                          (quiet_world silent_reply)).1.2
  = <[rate_key (client_ip (Some "203.0.113.7"))
      := mkRateEntry (num_toString (Int (0 + 1)))
                     (clock (quiet_world silent_reply) + 60000)]>
      (rate_limit (quiet_world silent_reply)).
Proof.
  apply (send_costs_one_request empty_input (Some "203.0.113.7") 0
           (quiet_world silent_reply)).
  - reflexivity.
  - reflexivity.
  - reflexivity.
  - lia.
Defined.
